(** * The gap buffer of [simple_text_editor.py]

    A shallow embedding of the class [GapBuffer] and the properties of its
    edit and cursor operations.

    Python values are modelled as follows.
    - An [int] is a [Z] (Python integers are unbounded).
    - A [str] is a list of characters ([list ascii]; a character stands for
      one code point).  The elements of [start_buffer] and [end_buffer] are
      Python strings: the one-character strings produced by
      [list(initial_text)] and passed to [insert], and the empty strings
      [''] that [_expand_gap] appends.
    - A method that mutates [self] is a function from the old object to the
      new one; a method that can raise ([list.pop] on an empty list) or
      that contains a [while] loop returns a [result]. *)

From Stdlib Require Import ZArith Ascii String DecimalString List Lia Bool.
Import ListNotations.
Open Scope Z_scope.

(** ** Python strings and lists *)

Definition str := list ascii.

(** A string literal as a [str]. *)
Definition s_ (s : string) : str := list_ascii_of_string s.

(** [len(x)] as a Python integer. *)
Definition len {A : Type} (l : list A) : Z := Z.of_nat (length l).

(** [list(text)]: the one-character strings of [text]. *)
Definition list_of_str (text : str) : list str := map (fun c => [c]) text.

(** [''.join(l)]. *)
Definition join (l : list str) : str := concat l.

(** [[x] * n]; a count that is not positive gives the empty list. *)
Definition list_mul {A : Type} (x : A) (n : Z) : list A := repeat x (Z.to_nat n).

(** [text[0:p]] and [text[p:]] for [0 <= p]. *)
Definition slice_to (text : str) (p : Z) : str := firstn (Z.to_nat p) text.
Definition slice_from (text : str) (p : Z) : str := skipn (Z.to_nat p) text.

(** ** Outcomes of a method call *)

Inductive result (A : Type) : Type :=
| Ok (a : A)          (* the call returned *)
| IndexError          (* [pop] from an empty list *)
| OutOfFuel.          (* a [while] loop was still running when the fuel ran out *)

Arguments Ok {A} a.
Arguments IndexError {A}.
Arguments OutOfFuel {A}.

Definition bind {A B : Type} (r : result A) (k : A -> result B) : result B :=
  match r with
  | Ok a => k a
  | IndexError => IndexError
  | OutOfFuel => OutOfFuel
  end.

Notation "x <- r ;; k" := (bind r (fun x => k))
  (at level 61, r at next level, right associativity).

(** [l.pop()]: the last element and the list without it. *)
Fixpoint pop {A : Type} (l : list A) : option (A * list A) :=
  match l with
  | [] => None
  | y :: l' =>
      match pop l' with
      | None => Some (y, [])
      | Some (x, r) => Some (x, y :: r)
      end
  end.

(** [l.pop(0)]: the first element and the list without it. *)
Definition pop0 {A : Type} (l : list A) : option (A * list A) :=
  match l with
  | [] => None
  | x :: r => Some (x, r)
  end.

(** ** The class [GapBuffer] *)

Module GapBuffer.

Record t : Type := mk {
  buffer_size : Z;
  start_buffer : list str;
  gap_index : Z;
  gap_length : Z;
  end_buffer : list str
}.

Definition set_start_buffer (l : list str) (s : t) : t :=
  mk (buffer_size s) l (gap_index s) (gap_length s) (end_buffer s).
Definition set_end_buffer (l : list str) (s : t) : t :=
  mk (buffer_size s) (start_buffer s) (gap_index s) (gap_length s) l.
Definition set_gap_index (z : Z) (s : t) : t :=
  mk (buffer_size s) (start_buffer s) z (gap_length s) (end_buffer s).
Definition set_gap_length (z : Z) (s : t) : t :=
  mk (buffer_size s) (start_buffer s) (gap_index s) z (end_buffer s).
Definition set_buffer_size (z : Z) (s : t) : t :=
  mk z (start_buffer s) (gap_index s) (gap_length s) (end_buffer s).

(** [GapBuffer(initial_text, buffer_size)]. *)
Definition __init__ (initial_text : str) (buffer_size : Z) : t :=
  {| buffer_size := buffer_size;
     start_buffer := list_of_str initial_text;
     gap_index := len initial_text;
     gap_length := buffer_size - len initial_text;
     end_buffer := [] |}.

(** The default of the parameter [buffer_size]. *)
Definition default_buffer_size : Z := 1000.

Definition get_text (s : t) : str := join (start_buffer s ++ end_buffer s).

Definition _expand_gap (s : t) : t :=
  let new_buffer_size := buffer_size s * 2 in
  let new_start :=
    start_buffer s ++ list_mul (s_ "") (new_buffer_size - buffer_size s) in
  let s := set_start_buffer new_start s in
  let s := set_gap_length (gap_length s + (new_buffer_size - buffer_size s)) s in
  set_buffer_size new_buffer_size s.

Definition insert (char : str) (s : t) : t :=
  let s := if gap_length s =? 0 then _expand_gap s else s in
  let s := set_start_buffer (start_buffer s ++ [char]) s in
  let s := set_gap_index (gap_index s + 1) s in
  set_gap_length (gap_length s - 1) s.

(** [delete] returns the removed element, or [None]. *)
Definition delete (s : t) : result (option str * t) :=
  if gap_index s >? 0 then
    let s := set_gap_index (gap_index s - 1) s in
    let s := set_gap_length (gap_length s + 1) s in
    match pop (start_buffer s) with
    | Some (x, rest) => Ok (Some x, set_start_buffer rest s)
    | None => IndexError
    end
  else Ok (None, s).

Definition delete_forward (s : t) : result (option str * t) :=
  match end_buffer s with
  | _ :: _ =>
      let s := set_gap_length (gap_length s + 1) s in
      match pop0 (end_buffer s) with
      | Some (x, rest) => Ok (Some x, set_end_buffer rest s)
      | None => IndexError
      end
  | [] => Ok (None, s)
  end.

Definition move_cursor_left (s : t) : result t :=
  if gap_index s >? 0 then
    let s := set_gap_index (gap_index s - 1) s in
    let s := set_gap_length (gap_length s + 1) s in
    match pop (start_buffer s) with
    | Some (char, rest) =>
        let s := set_start_buffer rest s in
        Ok (set_end_buffer (char :: end_buffer s) s)
    | None => IndexError
    end
  else Ok s.

Definition move_cursor_right (s : t) : result t :=
  match end_buffer s with
  | _ :: _ =>
      let s := set_gap_length (gap_length s - 1) s in
      let s := set_gap_index (gap_index s + 1) s in
      match pop0 (end_buffer s) with
      | Some (char, rest) =>
          let s := set_end_buffer rest s in
          Ok (set_start_buffer (start_buffer s ++ [char]) s)
      | None => IndexError
      end
  | [] => Ok s
  end.

(** [while self.gap_index > position: self.move_cursor_left()], with one
    unit of fuel for each run of the body. *)
Fixpoint while_left (fuel : nat) (position : Z) (s : t) : result t :=
  if gap_index s >? position then
    match fuel with
    | O => OutOfFuel
    | S fuel' => s' <- move_cursor_left s ;; while_left fuel' position s'
    end
  else Ok s.

(** [while self.gap_index < position: self.move_cursor_right()]. *)
Fixpoint while_right (fuel : nat) (position : Z) (s : t) : result t :=
  if gap_index s <? position then
    match fuel with
    | O => OutOfFuel
    | S fuel' => s' <- move_cursor_right s ;; while_right fuel' position s'
    end
  else Ok s.

Definition move_cursor_to (fuel : nat) (position : Z) (s : t) : result t :=
  let current_pos := gap_index s in
  if position <? current_pos then while_left fuel position s
  else if position >? current_pos then while_right fuel position s
  else Ok s.

Definition get_cursor_position (s : t) : Z := gap_index s.

(** The dictionary returned by [get_stats]. *)
Record stats : Type := mk_stats {
  start_length : Z;
  stats_gap_length : Z;
  end_length : Z;
  total_size : Z;
  cursor_pos : Z
}.

Definition get_stats (s : t) : stats :=
  {| start_length := len (start_buffer s);
     stats_gap_length := gap_length s;
     end_length := len (end_buffer s);
     total_size := buffer_size s;
     cursor_pos := gap_index s |}.

End GapBuffer.

Import GapBuffer.

(** ** Sequences of calls *)

(** The calls a client makes on a buffer.  [insert] receives a single
    character, as the editor's key handler passes it. *)
Inductive op : Type :=
| Insert (c : ascii)
| Delete
| DeleteForward
| MoveCursorLeft
| MoveCursorRight
| MoveCursorTo (position : Z).

Definition exec (fuel : nat) (o : op) (s : t) : result t :=
  match o with
  | Insert c => Ok (insert [c] s)
  | Delete => r <- delete s ;; Ok (snd r)
  | DeleteForward => r <- delete_forward s ;; Ok (snd r)
  | MoveCursorLeft => move_cursor_left s
  | MoveCursorRight => move_cursor_right s
  | MoveCursorTo position => move_cursor_to fuel position s
  end.

Fixpoint run (fuel : nat) (ops : list op) (s : t) : result t :=
  match ops with
  | [] => Ok s
  | o :: ops' => s' <- exec fuel o s ;; run fuel ops' s'
  end.

(** A state is reachable when some finite sequence of calls, each of which
    returned, leads to it from a freshly constructed buffer. *)
Definition reachable (s : t) : Prop :=
  exists (initial_text : str) (size : Z) (fuel : nat) (ops : list op),
    run fuel ops (__init__ initial_text size) = Ok s.

(** ** Padding and genuine elements

    [_expand_gap] appends empty strings to [start_buffer].  They are list
    elements like any other, so the operations that pop an element can meet
    them.  [pads] counts them and [chars] counts the other elements. *)

Definition is_pad (x : str) : bool :=
  match x with
  | [] => true
  | _ :: _ => false
  end.

Definition pads (l : list str) : Z := len (filter is_pad l).
Definition chars (l : list str) : Z := len (filter (fun x => negb (is_pad x)) l).

(** ** The invariant the operations maintain

    [gap_index] never becomes negative, and it never exceeds the number of
    genuine elements of [start_buffer] less the padding that has been moved
    into [end_buffer].  In particular [start_buffer] is not empty when
    [gap_index] is positive, so that [pop] never raises. *)

Record inv (s : t) : Prop := {
  inv_nonneg : 0 <= gap_index s;
  inv_chars : gap_index s + pads (end_buffer s) <= chars (start_buffer s)
}.

(** A call is safe for [P] when it does not raise and, if it returns, its
    result satisfies [P]. *)
Definition safe {A : Type} (P : A -> Prop) (r : result A) : Prop :=
  match r with
  | Ok a => P a
  | IndexError => False
  | OutOfFuel => True
  end.

(** ** Scenarios *)

(** [GapBuffer("", 1)] after [insert('a')], [insert('b')]: the second
    insertion finds [gap_length == 0] and expands the gap. *)
Definition after_growth : t :=
  mk 2 [s_ "a"; s_ ""; s_ "b"] 2 0 [].

(** ... after a further [delete()]. *)
Definition padded_state : t :=
  mk 2 [s_ "a"; s_ ""] 1 1 [].

(** ... and after a second [delete()]. *)
Definition stuck_state : t :=
  mk 2 [s_ "a"] 0 2 [].

(** [after_growth] after [move_cursor_left()] twice. *)
Definition shifted_state : t :=
  mk 2 [s_ "a"] 0 2 [s_ ""; s_ "b"].

(** [padded_state] after [move_cursor_left()]. *)
Definition pad_right_state : t :=
  mk 2 [s_ "a"] 0 2 [s_ ""].

(** [n] insertions of the character [c]. *)
Definition typing (n : nat) (c : ascii) : list op := repeat (Insert c) n.

(** The calls [insert(c)] for the elements [c] of [chars], in order. *)
Definition inserts (chars : list str) (s : t) : t :=
  fold_left (fun s c => insert c s) chars s.

(** ** Buffers without padding *)

(** A one-character string. *)
Definition single (x : str) : bool :=
  match x with
  | [_] => true
  | _ => false
  end.

(** A buffer is unpadded when every element of its two lists is a
    one-character string and [gap_index] is the length of [start_buffer]:
    the state of a buffer whose gap has not been expanded with padding. *)
Definition unpadded (s : t) : bool :=
  forallb single (start_buffer s) && forallb single (end_buffer s)
  && (gap_index s =? len (start_buffer s)).

(** The number of [insert] calls in a sequence of calls. *)
Fixpoint count_inserts (ops : list op) : Z :=
  match ops with
  | [] => 0
  | Insert _ :: ops' => 1 + count_inserts ops'
  | _ :: ops' => count_inserts ops'
  end.

(** Whether a sequence of calls is free of [delete_forward]. *)
Fixpoint no_delete_forward (ops : list op) : bool :=
  match ops with
  | [] => true
  | DeleteForward :: _ => false
  | _ :: ops' => no_delete_forward ops'
  end.

(** The length of [start_buffer] beyond the cursor, less the buffer size:
    the quantity that the padding of [_expand_gap] keeps constant. *)
Definition padding_balance (s : t) : Z :=
  len (start_buffer s) - gap_index s - Z.max 0 (buffer_size s).

(** By how much [gap_length] exceeds the room that [buffer_size] leaves
    after the cursor. *)
Definition gap_excess (s : t) : Z :=
  gap_length s + gap_index s - buffer_size s.

(** The room left in the buffer: its size less the number of elements it
    holds. *)
Definition room (s : t) : Z :=
  buffer_size s - len (start_buffer s) - len (end_buffer s).

(** [GapBuffer("x", 4)] after the calls [edit_calls], which stay within
    its room. *)
Definition edit_calls : list op :=
  [Insert "a"; Insert "b"; MoveCursorTo 1; Delete; Insert "c"].

Definition edited_state : t :=
  mk 4 [s_ "c"] 1 3 [s_ "a"; s_ "b"].

(** ** The class [SimpleTextEditor]

    The editor owns a [GapBuffer] and three Tk widgets.  Of the widgets the
    model keeps what the methods last wrote into them: the text put into
    [text_area], the index given to its [INSERT] mark, and the text of
    [status_bar].  What the toolkit supplies (the key of an event, the
    character index of a click, the file name chosen in a dialog, the
    content read from a file) is an argument of the method. *)

(** [str(z)] for an integer, as the f-strings format it. *)
Definition str_of_int (z : Z) : str := s_ (NilZero.string_of_int (Z.to_int z)).

Module SimpleTextEditor.

(** The attributes of a key event that [on_key_press] reads. *)
Record key_event : Type := mk_key_event {
  keysym : string;
  char : str
}.

Record t : Type := mk {
  gap_buffer : GapBuffer.t;
  text_area : str;
  insert_mark : str;
  status_bar : str
}.

Definition set_gap_buffer (b : GapBuffer.t) (e : t) : t :=
  mk b (text_area e) (insert_mark e) (status_bar e).
Definition set_text_area (x : str) (e : t) : t :=
  mk (gap_buffer e) x (insert_mark e) (status_bar e).
Definition set_insert_mark (x : str) (e : t) : t :=
  mk (gap_buffer e) (text_area e) x (status_bar e).
Definition set_status_bar (x : str) (e : t) : t :=
  mk (gap_buffer e) (text_area e) (insert_mark e) x.

Definition update_status (e : t) : t :=
  let text := get_text (gap_buffer e) in
  let cursor_pos := get_cursor_position (gap_buffer e) in
  let stats := get_stats (gap_buffer e) in
  let status_text :=
    s_ "Cursor: " ++ str_of_int cursor_pos ++ s_ " | Length: "
    ++ str_of_int (len text) ++ s_ " | Gap: "
    ++ str_of_int (stats_gap_length stats) in
  set_status_bar status_text e.

Definition update_display (e : t) : t :=
  let text := get_text (gap_buffer e) in
  let e := set_text_area text e in
  let cursor_pos := get_cursor_position (gap_buffer e) in
  let e := set_insert_mark (s_ "1." ++ str_of_int cursor_pos) e in
  update_status e.

(** [SimpleTextEditor(root)]: a fresh buffer, the widgets as
    [create_widgets] makes them, then [update_display]. *)
Definition __init__ : t :=
  update_display
    {| gap_buffer := GapBuffer.__init__ (s_ "") default_buffer_size;
       text_area := s_ "";
       insert_mark := s_ "1.0";
       status_bar := s_ "Ready" |}.

(** [on_key_press] returns ['break'] for the keys it handles and [None]
    otherwise. *)
Definition on_key_press (fuel : nat) (event : key_event) (e : t)
  : result (option str * t) :=
  if (keysym event =? "BackSpace")%string then
    r <- delete (gap_buffer e) ;;
    Ok (Some (s_ "break"), update_display (set_gap_buffer (snd r) e))
  else if (keysym event =? "Delete")%string then
    r <- delete_forward (gap_buffer e) ;;
    Ok (Some (s_ "break"), update_display (set_gap_buffer (snd r) e))
  else if (keysym event =? "Left")%string then
    b <- move_cursor_left (gap_buffer e) ;;
    Ok (Some (s_ "break"), update_display (set_gap_buffer b e))
  else if (keysym event =? "Right")%string then
    b <- move_cursor_right (gap_buffer e) ;;
    Ok (Some (s_ "break"), update_display (set_gap_buffer b e))
  else if (keysym event =? "Home")%string then
    b <- move_cursor_to fuel 0 (gap_buffer e) ;;
    Ok (Some (s_ "break"), update_display (set_gap_buffer b e))
  else if (keysym event =? "End")%string then
    b <- move_cursor_to fuel (len (get_text (gap_buffer e))) (gap_buffer e) ;;
    Ok (Some (s_ "break"), update_display (set_gap_buffer b e))
  else if len (char event) =? 1 then
    Ok (Some (s_ "break"),
        update_display (set_gap_buffer (insert (char event) (gap_buffer e)) e))
  else Ok (None, e).

(** [on_click], given the character index computed from the click. *)
Definition on_click (fuel : nat) (char_index : Z) (e : t) : result t :=
  b <- move_cursor_to fuel char_index (gap_buffer e) ;;
  Ok (update_display (set_gap_buffer b e)).

Definition on_key_release (e : t) : t := update_status e.

Definition new_file (e : t) : t :=
  let e := set_gap_buffer (GapBuffer.__init__ (s_ "") default_buffer_size) e in
  let e := update_display e in
  set_status_bar (s_ "New file created") e.

(** [open_file], given the file name chosen in the dialog (empty when the
    dialog was cancelled) and the content read from the file ([None] when
    reading raised, which the method reports in a message box). *)
Definition open_file (filename : string) (read : option str) (e : t) : t :=
  if (filename =? "")%string then e
  else
    match read with
    | Some content =>
        let e := set_gap_buffer (GapBuffer.__init__ content default_buffer_size) e in
        let e := update_display e in
        set_status_bar (s_ "Opened: " ++ s_ filename) e
    | None => e
    end.

(** [save_file], given the file name chosen and whether opening and
    writing the file succeeded; the first component is the content that has
    been written, if any. *)
Definition save_file (filename : string) (written : bool) (e : t)
  : option str * t :=
  if (filename =? "")%string then (None, e)
  else
    let content := get_text (gap_buffer e) in
    if written
    then (Some content, set_status_bar (s_ "Saved: " ++ s_ filename) e)
    else (None, e).

End SimpleTextEditor.

(** What the user and the toolkit do to the editor. *)
Inductive ui_event : Type :=
| KeyPress (event : SimpleTextEditor.key_event)
| KeyRelease
| Click (char_index : Z)
| NewFile
| OpenFile (filename : string) (read : option str)
| SaveFile (filename : string) (written : bool).

Definition handle (fuel : nat) (ev : ui_event) (e : SimpleTextEditor.t)
  : result SimpleTextEditor.t :=
  match ev with
  | KeyPress event =>
      r <- SimpleTextEditor.on_key_press fuel event e ;; Ok (snd r)
  | KeyRelease => Ok (SimpleTextEditor.on_key_release e)
  | Click char_index => SimpleTextEditor.on_click fuel char_index e
  | NewFile => Ok (SimpleTextEditor.new_file e)
  | OpenFile filename read => Ok (SimpleTextEditor.open_file filename read e)
  | SaveFile filename written =>
      Ok (snd (SimpleTextEditor.save_file filename written e))
  end.

Fixpoint session (fuel : nat) (evs : list ui_event) (e : SimpleTextEditor.t)
  : result SimpleTextEditor.t :=
  match evs with
  | [] => Ok e
  | ev :: evs' => e' <- handle fuel ev e ;; session fuel evs' e'
  end.

(** The widgets show the buffer: the text area holds its text and the
    insertion mark sits at its cursor position on line 1. *)
Definition in_sync (e : SimpleTextEditor.t) : Prop :=
  SimpleTextEditor.text_area e = get_text (SimpleTextEditor.gap_buffer e) /\
  SimpleTextEditor.insert_mark e =
    s_ "1." ++ str_of_int (get_cursor_position (SimpleTextEditor.gap_buffer e)).

(** Typing "hi", going home, pressing a modifier key, clicking after the
    first character and pressing backspace. *)
Definition demo_events : list ui_event :=
  [KeyPress (SimpleTextEditor.mk_key_event "h" (s_ "h"));
   KeyPress (SimpleTextEditor.mk_key_event "i" (s_ "i"));
   KeyRelease;
   KeyPress (SimpleTextEditor.mk_key_event "Home" (s_ ""));
   KeyPress (SimpleTextEditor.mk_key_event "Shift_L" (s_ ""));
   Click 1;
   KeyPress (SimpleTextEditor.mk_key_event "BackSpace" [ "008"%char ])].

(** The loading of the sample text in [main]: a new editor, one [insert]
    for each character of [sample_text], then [update_display]. *)
Definition main_load (sample_text : str) : SimpleTextEditor.t :=
  let editor := SimpleTextEditor.__init__ in
  let b :=
    fold_left (fun b char => insert char b) (list_of_str sample_text)
              (SimpleTextEditor.gap_buffer editor) in
  SimpleTextEditor.update_display (SimpleTextEditor.set_gap_buffer b editor).

(** ** Facts about the list primitives *)

Section ListFacts.

Context {A : Type}.

Lemma len_nonneg (l : list A) : 0 <= len l.
Proof. unfold len; lia. Qed.

Lemma len_app (l1 l2 : list A) : len (l1 ++ l2) = len l1 + len l2.
Proof. unfold len; rewrite length_app; lia. Qed.

Lemma len_cons (x : A) (l : list A) : len (x :: l) = 1 + len l.
Proof. unfold len; simpl length; lia. Qed.

Lemma pop_app (l : list A) (x : A) : pop (l ++ [x]) = Some (x, l).
Proof.
  induction l as [|y l IH]; simpl; [reflexivity|].
  rewrite IH; reflexivity.
Qed.

Lemma pop_Some (l r : list A) (x : A) : pop l = Some (x, r) -> l = r ++ [x].
Proof.
  revert r; induction l as [|y l IH]; simpl; intros r H; [discriminate|].
  destruct (pop l) as [[x' r']|] eqn:E.
  - injection H as <- <-. simpl. f_equal. apply IH; reflexivity.
  - injection H as <- <-. destruct l as [|z l]; [reflexivity|].
    simpl in E. destruct (pop l) as [[? ?]|]; discriminate.
Qed.

Lemma pop_None (l : list A) : pop l = None -> l = [].
Proof.
  destruct l as [|y l]; simpl; [reflexivity|].
  destruct (pop l) as [[? ?]|]; discriminate.
Qed.

Lemma pop_nonempty (l : list A) : l <> [] -> exists x r, l = r ++ [x].
Proof.
  intros H. destruct (exists_last H) as (r & x & ->). eauto.
Qed.

End ListFacts.

Lemma join_app (l1 l2 : list str) : join (l1 ++ l2) = join l1 ++ join l2.
Proof. apply concat_app. Qed.

Lemma join_list_mul_empty (n : Z) : join (list_mul (s_ "") n) = [].
Proof.
  unfold list_mul. induction (Z.to_nat n) as [|k IH]; simpl; auto.
Qed.

Lemma join_list_of_str (text : str) : join (list_of_str text) = text.
Proof.
  induction text as [|c text IH]; [reflexivity|].
  change (list_of_str (c :: text)) with ([c] :: list_of_str text).
  change (join ([c] :: list_of_str text)) with (c :: join (list_of_str text)).
  rewrite IH. reflexivity.
Qed.

Lemma join_single (x : str) : join [x] = x.
Proof. unfold join; simpl. apply app_nil_r. Qed.

Lemma join_cons (x : str) (l : list str) : join (x :: l) = x ++ join l.
Proof. reflexivity. Qed.

(** ** Counting padding and genuine elements *)

Lemma pads_nonneg l : 0 <= pads l.
Proof. apply len_nonneg. Qed.

Lemma chars_nonneg l : 0 <= chars l.
Proof. apply len_nonneg. Qed.

Lemma pads_app l1 l2 : pads (l1 ++ l2) = pads l1 + pads l2.
Proof. unfold pads. rewrite filter_app. apply len_app. Qed.

Lemma chars_app l1 l2 : chars (l1 ++ l2) = chars l1 + chars l2.
Proof. unfold chars. rewrite filter_app. apply len_app. Qed.

Lemma pads_cons x l : pads (x :: l) = (if is_pad x then 1 else 0) + pads l.
Proof.
  unfold pads. simpl. destruct (is_pad x); [apply len_cons | lia].
Qed.

Lemma chars_cons x l : chars (x :: l) = (if is_pad x then 0 else 1) + chars l.
Proof.
  unfold chars. simpl. destruct (is_pad x); simpl; [lia | apply len_cons].
Qed.

Lemma chars_list_mul_empty n : chars (list_mul (s_ "") n) = 0.
Proof.
  unfold list_mul. induction (Z.to_nat n) as [|k IH]; simpl; auto.
Qed.

Lemma chars_list_of_str text : chars (list_of_str text) = len text.
Proof.
  induction text as [|c text IH]; [reflexivity|].
  change (list_of_str (c :: text)) with ([c] :: list_of_str text).
  rewrite chars_cons, IH, len_cons. reflexivity.
Qed.

Lemma chars_le_len l : chars l <= len l.
Proof.
  induction l as [|x l IH]; [reflexivity|].
  rewrite chars_cons, len_cons. destruct (is_pad x); lia.
Qed.

Lemma chars_le_join l : chars l <= len (join l).
Proof.
  induction l as [|x l IH]; [reflexivity|].
  rewrite chars_cons, join_cons, len_app.
  destruct x as [|c x]; simpl is_pad; cbv iota.
  - rewrite Z.add_0_l. exact IH.
  - rewrite len_cons. pose proof (len_nonneg x). lia.
Qed.

Lemma chars_pos_nonempty l : 0 < chars l -> l <> [].
Proof. intros H ->. unfold chars in H; simpl in H. cbv in H. discriminate. Qed.

(** ** What each method does to the text and to the cursor *)

Ltac unfold_ops :=
  unfold insert, delete, delete_forward, move_cursor_left, move_cursor_right,
    _expand_gap, get_text, get_cursor_position, set_start_buffer,
    set_end_buffer, set_gap_index, set_gap_length, set_buffer_size in *;
  simpl in *.

Section Methods.

Lemma get_text_init text size : get_text (__init__ text size) = text.
Proof.
  unfold get_text, __init__; simpl. rewrite app_nil_r. apply join_list_of_str.
Qed.

Lemma get_text_expand_gap s : get_text (_expand_gap s) = get_text s.
Proof.
  destruct s as [bs st gi gl en]. unfold_ops.
  rewrite !join_app, join_list_mul_empty, app_nil_r. reflexivity.
Qed.

Lemma gap_index_expand_gap s : gap_index (_expand_gap s) = gap_index s.
Proof. reflexivity. Qed.

Lemma end_buffer_expand_gap s : end_buffer (_expand_gap s) = end_buffer s.
Proof. reflexivity. Qed.

Lemma join_start_expand_gap s :
  join (start_buffer (_expand_gap s)) = join (start_buffer s).
Proof.
  destruct s as [bs st gi gl en]. unfold_ops.
  rewrite join_app, join_list_mul_empty, app_nil_r. reflexivity.
Qed.

Lemma chars_start_expand_gap s :
  chars (start_buffer (_expand_gap s)) = chars (start_buffer s).
Proof.
  destruct s as [bs st gi gl en]. unfold_ops.
  rewrite chars_app, chars_list_mul_empty. lia.
Qed.

Lemma gap_index_insert char s : gap_index (insert char s) = gap_index s + 1.
Proof. unfold insert. destruct (gap_length s =? 0); reflexivity. Qed.

Lemma end_buffer_insert char s : end_buffer (insert char s) = end_buffer s.
Proof. unfold insert. destruct (gap_length s =? 0); reflexivity. Qed.

Lemma join_start_insert char s :
  join (start_buffer (insert char s)) = join (start_buffer s) ++ char.
Proof.
  unfold insert. destruct (gap_length s =? 0); cbn [start_buffer set_gap_length
    set_gap_index set_start_buffer]; rewrite join_app, join_single;
    [rewrite join_start_expand_gap|]; reflexivity.
Qed.

Lemma chars_start_insert char s :
  chars (start_buffer (insert char s)) =
  chars (start_buffer s) + (if is_pad char then 0 else 1).
Proof.
  unfold insert. destruct (gap_length s =? 0); cbn [start_buffer set_gap_length
    set_gap_index set_start_buffer]; rewrite chars_app, chars_cons;
    [rewrite chars_start_expand_gap|]; change (chars []) with 0; lia.
Qed.

(** The text after [insert]: the new element lands after everything that
    [start_buffer] holds and before [end_buffer]. *)
Lemma get_text_insert char s :
  get_text (insert char s) =
  join (start_buffer s) ++ char ++ join (end_buffer s).
Proof.
  unfold get_text. rewrite join_app, join_start_insert, end_buffer_insert.
  rewrite <- app_assoc. reflexivity.
Qed.

Lemma get_text_split s :
  get_text s = join (start_buffer s) ++ join (end_buffer s).
Proof. apply join_app. Qed.

(** [delete] at a positive cursor, when [start_buffer] ends with [x]. *)
Lemma delete_pos s l x :
  0 < gap_index s -> start_buffer s = l ++ [x] ->
  delete s =
  Ok (Some x, mk (buffer_size s) l (gap_index s - 1) (gap_length s + 1)
                 (end_buffer s)).
Proof.
  intros Hpos Hst. unfold delete.
  replace (gap_index s >? 0) with true by (symmetry; apply Z.gtb_lt; lia).
  cbn [start_buffer set_gap_length set_gap_index]. rewrite Hst, pop_app.
  reflexivity.
Qed.

Lemma delete_zero s : gap_index s <= 0 -> delete s = Ok (None, s).
Proof.
  intros H. unfold delete.
  replace (gap_index s >? 0) with false; [reflexivity|].
  symmetry. rewrite Z.gtb_ltb. apply Z.ltb_ge. exact H.
Qed.

Lemma delete_forward_cons s x r :
  end_buffer s = x :: r ->
  delete_forward s =
  Ok (Some x, mk (buffer_size s) (start_buffer s) (gap_index s)
                 (gap_length s + 1) r).
Proof.
  intros H. unfold delete_forward. rewrite H.
  cbn [end_buffer set_gap_length]. rewrite H. reflexivity.
Qed.

Lemma delete_forward_nil s : end_buffer s = [] -> delete_forward s = Ok (None, s).
Proof. intros H. unfold delete_forward. rewrite H. reflexivity. Qed.

Lemma move_cursor_left_pos s l x :
  0 < gap_index s -> start_buffer s = l ++ [x] ->
  move_cursor_left s =
  Ok (mk (buffer_size s) l (gap_index s - 1) (gap_length s + 1)
         (x :: end_buffer s)).
Proof.
  intros Hpos Hst. unfold move_cursor_left.
  replace (gap_index s >? 0) with true by (symmetry; apply Z.gtb_lt; lia).
  cbn [start_buffer set_gap_length set_gap_index]. rewrite Hst, pop_app.
  reflexivity.
Qed.

Lemma move_cursor_left_zero s : gap_index s <= 0 -> move_cursor_left s = Ok s.
Proof.
  intros H. unfold move_cursor_left.
  replace (gap_index s >? 0) with false; [reflexivity|].
  symmetry. rewrite Z.gtb_ltb. apply Z.ltb_ge. exact H.
Qed.

Lemma move_cursor_right_cons s x r :
  end_buffer s = x :: r ->
  move_cursor_right s =
  Ok (mk (buffer_size s) (start_buffer s ++ [x]) (gap_index s + 1)
         (gap_length s - 1) r).
Proof.
  intros H. unfold move_cursor_right. rewrite H.
  cbn [end_buffer set_gap_length set_gap_index]. rewrite H. reflexivity.
Qed.

Lemma move_cursor_right_nil s : end_buffer s = [] -> move_cursor_right s = Ok s.
Proof. intros H. unfold move_cursor_right. rewrite H. reflexivity. Qed.

End Methods.

(** ** The invariant is maintained *)

Lemma safe_bind {A B : Type} (P : A -> Prop) (Q : B -> Prop)
    (r : result A) (k : A -> result B) :
  safe P r -> (forall a, P a -> safe Q (k a)) -> safe Q (bind r k).
Proof. destruct r; simpl; auto. Qed.

Lemma safe_impl {A : Type} (P Q : A -> Prop) (r : result A) :
  safe P r -> (forall a, P a -> Q a) -> safe Q r.
Proof. destruct r; simpl; auto. Qed.

Lemma safe_Ok {A : Type} (P : A -> Prop) (r : result A) (a : A) :
  safe P r -> r = Ok a -> P a.
Proof. intros H ->. exact H. Qed.

Section Invariant.

Lemma inv_init text size : inv (__init__ text size).
Proof.
  split; simpl.
  - apply len_nonneg.
  - rewrite chars_list_of_str. change (pads []) with 0. lia.
Qed.

Lemma inv_expand_gap s : inv s -> inv (_expand_gap s).
Proof.
  intros [H0 H1]. split.
  - exact H0.
  - rewrite chars_start_expand_gap. exact H1.
Qed.

Lemma inv_insert c s : inv s -> inv (insert [c] s).
Proof.
  intros [H0 H1]. split.
  - rewrite gap_index_insert. lia.
  - rewrite gap_index_insert, end_buffer_insert, chars_start_insert.
    change (is_pad [c]) with false. cbv iota. lia.
Qed.

Lemma inv_start_last s :
  inv s -> 0 < gap_index s -> exists x l, start_buffer s = l ++ [x].
Proof.
  intros [H0 H1] Hpos. apply pop_nonempty, chars_pos_nonempty.
  pose proof (pads_nonneg (end_buffer s)). lia.
Qed.

Lemma inv_gap_index_le_len s : inv s -> gap_index s <= len (start_buffer s).
Proof.
  intros [H0 H1]. pose proof (pads_nonneg (end_buffer s)).
  pose proof (chars_le_len (start_buffer s)). lia.
Qed.

Lemma inv_delete s : inv s -> safe (fun r => inv (snd r)) (delete s).
Proof.
  intros Hinv. destruct (Z_lt_le_dec 0 (gap_index s)) as [Hpos|Hz].
  - destruct (inv_start_last s Hinv Hpos) as (x & l & Hst).
    rewrite (delete_pos s l x Hpos Hst). simpl.
    destruct Hinv as [H0 H1]. rewrite Hst, chars_app, chars_cons in H1.
    change (chars []) with 0 in H1.
    split; simpl; [lia|]. destruct (is_pad x); lia.
  - rewrite (delete_zero s Hz). exact Hinv.
Qed.

Lemma inv_delete_forward s :
  inv s -> safe (fun r => inv (snd r)) (delete_forward s).
Proof.
  intros Hinv. destruct (end_buffer s) as [|x r] eqn:E.
  - rewrite (delete_forward_nil s E). exact Hinv.
  - rewrite (delete_forward_cons s x r E). simpl.
    destruct Hinv as [H0 H1]. rewrite E, pads_cons in H1.
    pose proof (pads_nonneg r).
    split; simpl; [lia|]. destruct (is_pad x); lia.
Qed.

Lemma inv_move_cursor_left s :
  inv s ->
  safe (fun s' => inv s' /\ get_text s' = get_text s) (move_cursor_left s).
Proof.
  intros Hinv. destruct (Z_lt_le_dec 0 (gap_index s)) as [Hpos|Hz].
  - destruct (inv_start_last s Hinv Hpos) as (x & l & Hst).
    rewrite (move_cursor_left_pos s l x Hpos Hst). simpl.
    destruct Hinv as [H0 H1]. rewrite Hst, chars_app, chars_cons in H1.
    change (chars []) with 0 in H1.
    split; [split; simpl; [lia|]|].
    + rewrite pads_cons. destruct (is_pad x); lia.
    + unfold get_text. simpl. rewrite Hst, <- app_assoc. reflexivity.
  - rewrite (move_cursor_left_zero s Hz). simpl. auto.
Qed.

Lemma inv_move_cursor_right s :
  inv s ->
  safe (fun s' => inv s' /\ get_text s' = get_text s) (move_cursor_right s).
Proof.
  intros Hinv. destruct (end_buffer s) as [|x r] eqn:E.
  - rewrite (move_cursor_right_nil s E). simpl. auto.
  - rewrite (move_cursor_right_cons s x r E). simpl.
    destruct Hinv as [H0 H1]. rewrite E, pads_cons in H1.
    split; [split; simpl; [lia|]|].
    + rewrite chars_app, chars_cons. change (chars []) with 0.
      destruct (is_pad x); lia.
    + unfold get_text. simpl. rewrite E, <- app_assoc. reflexivity.
Qed.

Lemma inv_while_left fuel position s :
  inv s ->
  safe (fun s' => inv s' /\ get_text s' = get_text s)
       (while_left fuel position s).
Proof.
  revert s; induction fuel as [|fuel IH]; intros s Hinv; simpl;
    destruct (gap_index s >? position); simpl; auto.
  eapply safe_bind; [apply inv_move_cursor_left; exact Hinv|].
  intros s1 [Hinv1 Ht1]. eapply safe_impl; [apply IH; exact Hinv1|].
  simpl. intros s2 [Hinv2 Ht2]. split; [exact Hinv2 | congruence].
Qed.

Lemma inv_while_right fuel position s :
  inv s ->
  safe (fun s' => inv s' /\ get_text s' = get_text s)
       (while_right fuel position s).
Proof.
  revert s; induction fuel as [|fuel IH]; intros s Hinv; simpl;
    destruct (gap_index s <? position); simpl; auto.
  eapply safe_bind; [apply inv_move_cursor_right; exact Hinv|].
  intros s1 [Hinv1 Ht1]. eapply safe_impl; [apply IH; exact Hinv1|].
  simpl. intros s2 [Hinv2 Ht2]. split; [exact Hinv2 | congruence].
Qed.

Lemma inv_move_cursor_to fuel position s :
  inv s ->
  safe (fun s' => inv s' /\ get_text s' = get_text s)
       (move_cursor_to fuel position s).
Proof.
  intros Hinv. unfold move_cursor_to.
  destruct (position <? gap_index s); [apply inv_while_left; exact Hinv|].
  destruct (position >? gap_index s); [apply inv_while_right; exact Hinv|].
  simpl. auto.
Qed.

Lemma inv_exec fuel o s : inv s -> safe inv (exec fuel o s).
Proof.
  intros Hinv. destruct o; simpl.
  - apply inv_insert; exact Hinv.
  - eapply safe_bind; [apply inv_delete; exact Hinv | auto].
  - eapply safe_bind; [apply inv_delete_forward; exact Hinv | auto].
  - eapply safe_impl; [apply inv_move_cursor_left; exact Hinv | intros ? [? _]; assumption].
  - eapply safe_impl; [apply inv_move_cursor_right; exact Hinv | intros ? [? _]; assumption].
  - eapply safe_impl; [apply inv_move_cursor_to; exact Hinv | intros ? [? _]; assumption].
Qed.

Lemma inv_run fuel ops s : inv s -> safe inv (run fuel ops s).
Proof.
  revert s; induction ops as [|o ops IH]; intros s Hinv; simpl; [exact Hinv|].
  eapply safe_bind; [apply inv_exec; exact Hinv | exact IH].
Qed.

Lemma reachable_inv s : reachable s -> inv s.
Proof.
  intros (text & size & fuel & ops & Hrun).
  exact (safe_Ok inv _ s (inv_run fuel ops _ (inv_init text size)) Hrun).
Qed.

(** No sequence of calls on a fresh buffer raises. *)
Lemma run_no_IndexError fuel ops text size :
  run fuel ops (__init__ text size) <> IndexError.
Proof.
  intros H. pose proof (inv_run fuel ops _ (inv_init text size)) as Hs.
  rewrite H in Hs. exact Hs.
Qed.

End Invariant.

(** ** When the loops of [move_cursor_to] stop *)

Section Loops.

(** The leftward loop stops at any target between [0] and the cursor. *)
Lemma while_left_reaches fuel position s :
  inv s -> 0 <= position <= gap_index s ->
  (Z.to_nat (gap_index s - position) <= fuel)%nat ->
  exists s', while_left fuel position s = Ok s' /\ gap_index s' = position.
Proof.
  revert s; induction fuel as [|fuel IH]; intros s Hinv Hpos Hfuel; simpl.
  - replace (gap_index s >? position) with false
      by (symmetry; rewrite Z.gtb_ltb; apply Z.ltb_ge; lia).
    exists s. split; [reflexivity | lia].
  - destruct (gap_index s >? position) eqn:Hc.
    + apply Z.gtb_lt in Hc.
      assert (Hgi : 0 < gap_index s) by lia.
      destruct (inv_start_last s Hinv Hgi) as (x & l & Hst).
      pose proof (inv_move_cursor_left s Hinv) as Hsafe.
      rewrite (move_cursor_left_pos s l x Hgi Hst) in Hsafe |- *.
      simpl in Hsafe |- *. destruct Hsafe as [Hinv1 _].
      apply IH; [exact Hinv1 | simpl; lia | simpl; lia].
    + rewrite Z.gtb_ltb in Hc. apply Z.ltb_ge in Hc.
      exists s. split; [reflexivity | lia].
Qed.

(** The rightward loop stops at any target that [end_buffer] can supply. *)
Lemma while_right_reaches fuel position s :
  gap_index s <= position <= gap_index s + len (end_buffer s) ->
  (Z.to_nat (position - gap_index s) <= fuel)%nat ->
  exists s', while_right fuel position s = Ok s' /\ gap_index s' = position.
Proof.
  revert s; induction fuel as [|fuel IH]; intros s Hpos Hfuel; simpl.
  - replace (gap_index s <? position) with false
      by (symmetry; apply Z.ltb_ge; lia).
    exists s. split; [reflexivity | lia].
  - destruct (gap_index s <? position) eqn:Hc.
    + apply Z.ltb_lt in Hc.
      destruct (end_buffer s) as [|x r] eqn:E.
      { change (len []) with 0 in Hpos. lia. }
      rewrite (move_cursor_right_cons s x r E). simpl.
      rewrite len_cons in Hpos.
      apply IH; simpl; lia.
    + apply Z.ltb_ge in Hc. exists s. split; [reflexivity | lia].
Qed.

(** [move_cursor_to] returns, with the cursor on the target, for every
    target between [0] and [gap_index + len(end_buffer)]. *)
Lemma move_cursor_to_reaches fuel position s :
  inv s -> 0 <= position <= gap_index s + len (end_buffer s) ->
  (Z.to_nat (Z.abs (position - gap_index s)) <= fuel)%nat ->
  exists s', move_cursor_to fuel position s = Ok s' /\ gap_index s' = position.
Proof.
  intros Hinv Hpos Hfuel. unfold move_cursor_to.
  destruct (position <? gap_index s) eqn:Hl.
  - apply Z.ltb_lt in Hl. apply while_left_reaches; [exact Hinv | lia | lia].
  - apply Z.ltb_ge in Hl. destruct (position >? gap_index s) eqn:Hr.
    + apply Z.gtb_lt in Hr. apply while_right_reaches; lia.
    + rewrite Z.gtb_ltb in Hr. apply Z.ltb_ge in Hr.
      exists s. split; [reflexivity | lia].
Qed.

(** With nothing left in [end_buffer] the body of the rightward loop
    changes nothing, so the loop cannot make progress. *)
Lemma while_right_stuck fuel position s :
  end_buffer s = [] -> gap_index s < position ->
  while_right fuel position s = OutOfFuel.
Proof.
  intros E Hlt. induction fuel as [|fuel IH]; simpl;
    replace (gap_index s <? position) with true
      by (symmetry; apply Z.ltb_lt; exact Hlt).
  - reflexivity.
  - rewrite (move_cursor_right_nil s E). simpl. exact IH.
Qed.

Lemma move_cursor_to_stuck fuel position s :
  end_buffer s = [] -> gap_index s < position ->
  move_cursor_to fuel position s = OutOfFuel.
Proof.
  intros E Hlt. unfold move_cursor_to.
  replace (position <? gap_index s) with false
    by (symmetry; apply Z.ltb_ge; lia).
  replace (position >? gap_index s) with true
    by (symmetry; apply Z.gtb_lt; lia).
  apply while_right_stuck; assumption.
Qed.

End Loops.

(** ** Length of the text under the edit operations *)

Section Lengths.

Lemma insert_length c s : len (get_text (insert [c] s)) = len (get_text s) + 1.
Proof.
  rewrite get_text_insert, get_text_split, !len_app, len_cons.
  change (len []) with 0. lia.
Qed.

(** A [delete] that returns a one-character string shortens the text by
    one; a [delete] that returns the empty string leaves the text as it
    was. *)
Lemma delete_length s x s' :
  delete s = Ok (Some x, s') -> len (get_text s') = len (get_text s) - len x.
Proof.
  unfold delete. destruct (gap_index s >? 0); [|discriminate].
  cbn [start_buffer set_gap_index set_gap_length].
  destruct (pop (start_buffer s)) as [[y rest]|] eqn:E; [|discriminate].
  intros H. injection H as <- <-. apply pop_Some in E.
  unfold get_text; cbn [start_buffer end_buffer set_start_buffer
    set_gap_index set_gap_length].
  rewrite E, !join_app, join_single, !len_app. lia.
Qed.

Lemma delete_forward_length s x s' :
  delete_forward s = Ok (Some x, s') ->
  len (get_text s') = len (get_text s) - len x.
Proof.
  unfold delete_forward. destruct (end_buffer s) as [|y rest] eqn:E;
    [discriminate|].
  cbn [end_buffer set_gap_length]. rewrite E. simpl pop0.
  intros H. injection H as <- <-.
  unfold get_text; cbn [start_buffer end_buffer set_end_buffer set_gap_length].
  rewrite E, !join_app, join_cons, !len_app. lia.
Qed.

Lemma delete_None s s' : delete s = Ok (None, s') -> s' = s.
Proof.
  unfold delete. destruct (gap_index s >? 0).
  - destruct (pop _) as [[? ?]|]; discriminate.
  - intros H. injection H as <-. reflexivity.
Qed.

Lemma delete_forward_None s s' : delete_forward s = Ok (None, s') -> s' = s.
Proof.
  unfold delete_forward. destruct (end_buffer s) as [|y rest] eqn:E.
  - intros H. injection H as <-. reflexivity.
  - cbn [end_buffer set_gap_length]. rewrite E. discriminate.
Qed.

End Lengths.

(** ** The claims *)

(** C1 (fails on the code).  The cursor is meant to equal the length of
    [start_buffer].  After [GapBuffer("", 1)], [insert('a')], [insert('b')]
    the second insertion has run [_expand_gap], which appended an empty
    string to [start_buffer]: the cursor is 2 and [start_buffer] has 3
    elements. *)
Theorem C1_growth_breaks_cursor_length :
  run 0 [Insert "a"; Insert "b"] (__init__ (s_ "") 1) = Ok after_growth /\
  get_cursor_position after_growth = 2 /\
  len (start_buffer after_growth) = 3.
Proof. repeat split. Qed.

(** The same right after [_expand_gap] itself, in any state whose
    [buffer_size] is positive. *)
Lemma expand_gap_start_length s :
  len (start_buffer (_expand_gap s)) =
  len (start_buffer s) + Z.max 0 (buffer_size s).
Proof.
  destruct s as [bs st gi gl en]. unfold_ops. rewrite len_app.
  unfold list_mul, len at 2. rewrite repeat_length. lia.
Qed.

Lemma expand_gap_breaks_cursor_length s :
  0 < buffer_size s -> gap_index s = len (start_buffer s) ->
  gap_index (_expand_gap s) <> len (start_buffer (_expand_gap s)).
Proof.
  intros Hbs Heq. rewrite expand_gap_start_length, gap_index_expand_gap. lia.
Qed.

(** With the default size the editor reaches such a state by typing 1001
    characters. *)
Lemma default_growth_breaks_cursor_length :
  exists s, run 0 (typing 1001 "x") (__init__ (s_ "") default_buffer_size) = Ok s /\
            get_cursor_position s = 1001 /\ len (start_buffer s) = 2001.
Proof. eexists. split; [vm_compute; reflexivity | split; reflexivity]. Qed.

(** What the code does maintain. *)
Lemma reachable_cursor_le_start_length s :
  reachable s -> 0 <= gap_index s <= len (start_buffer s).
Proof.
  intros H. apply reachable_inv in H. split.
  - apply (inv_nonneg s H).
  - apply inv_gap_index_le_len; exact H.
Qed.

(** C2 (fails on the code).  [move_cursor_to] is meant to return with the
    cursor on any target in [[0, len(get_text())]].  After
    [GapBuffer("", 1)], [insert('a')], [insert('b')], [delete()],
    [delete()] the text is ["a"], the cursor is 0 and [end_buffer] is
    empty: [move_cursor_to(1)] runs [move_cursor_right], which does nothing,
    for ever. *)
Theorem C2_move_cursor_to_never_returns :
  run 0 [Insert "a"; Insert "b"; Delete; Delete] (__init__ (s_ "") 1)
    = Ok stuck_state /\
  get_text stuck_state = s_ "a" /\
  get_cursor_position stuck_state = 0 /\
  0 <= 1 <= len (get_text stuck_state) /\
  forall fuel, move_cursor_to fuel 1 stuck_state = OutOfFuel.
Proof.
  split; [reflexivity|]. split; [reflexivity|]. split; [reflexivity|].
  split; [cbv; split; discriminate|].
  intros fuel. apply move_cursor_to_stuck; [reflexivity | reflexivity].
Qed.

(** With the default size: type 1001 characters, press backspace twice,
    then ask for the end of the text. *)
Lemma default_move_to_end_never_returns :
  exists s,
    run 0 (typing 1001 "x" ++ [Delete; Delete])
        (__init__ (s_ "") default_buffer_size) = Ok s /\
    len (get_text s) = 1000 /\ get_cursor_position s = 999 /\
    forall fuel, move_cursor_to fuel (len (get_text s)) s = OutOfFuel.
Proof.
  eexists. split; [vm_compute; reflexivity|].
  split; [vm_compute; reflexivity|]. split; [reflexivity|].
  intros fuel. apply move_cursor_to_stuck; [reflexivity | vm_compute; reflexivity].
Qed.

(** C3 (fails on the code).  [__init__] stores
    [buffer_size - len(initial_text)] as it is: for a text of 1000
    characters and a size of 10 the gap length is [-990], where
    [max(0, 10 - 1000)] is [0]. *)
Theorem C3_init_gap_length_negative :
  gap_length (__init__ (repeat "x"%char 1000) 10) = -990 /\
  Z.max 0 (10 - len (repeat "x"%char 1000)) = 0.
Proof. split; vm_compute; reflexivity. Qed.

(** [__init__] agrees with [max(0, ...)] exactly when the text fits. *)
Lemma init_gap_length text size :
  len text <= size ->
  gap_length (__init__ text size) = Z.max 0 (size - len text).
Proof. intros H. simpl. lia. Qed.

(** [move_cursor_right] decrements [gap_length] without looking at it, so
    the gap length also becomes negative in a buffer whose text fits. *)
Lemma move_cursor_right_gap_length_negative :
  exists s,
    run 0 [MoveCursorLeft; Insert "b"; MoveCursorRight] (__init__ (s_ "a") 1)
      = Ok s /\
    gap_length s = -1.
Proof. eexists. split; reflexivity. Qed.

(** C4 (fails on the code).  A deletion that returns an element is meant
    to shorten the text by one.  In [padded_state] the last element of
    [start_buffer] is an empty string left by [_expand_gap]: [delete()]
    returns it (not [None]) and the text keeps its length.  The same
    happens to [delete_forward()] once such an element has been moved into
    [end_buffer]. *)
Theorem C4_delete_returns_padding :
  run 0 [Insert "a"; Insert "b"; Delete] (__init__ (s_ "") 1)
    = Ok padded_state /\
  delete padded_state = Ok (Some (s_ ""), stuck_state) /\
  len (get_text stuck_state) = len (get_text padded_state) /\
  run 0 [Insert "a"; Insert "b"; Delete; MoveCursorLeft] (__init__ (s_ "") 1)
    = Ok pad_right_state /\
  delete_forward pad_right_state
    = Ok (Some (s_ ""), set_gap_length 3 stuck_state) /\
  len (get_text (set_gap_length 3 stuck_state))
    = len (get_text pad_right_state).
Proof. repeat split. Qed.

(** The parts of the claim that do hold in every state: [insert] adds one
    to the length, a deletion that returns a one-character string takes
    one away, and a deletion that returns [None] changes nothing. *)
Lemma length_conservation s :
  (forall c, len (get_text (insert [c] s)) = len (get_text s) + 1) /\
  (forall c s', delete s = Ok (Some [c], s') ->
                len (get_text s') = len (get_text s) - 1) /\
  (forall c s', delete_forward s = Ok (Some [c], s') ->
                len (get_text s') = len (get_text s) - 1) /\
  (forall s', delete s = Ok (None, s') -> s' = s) /\
  (forall s', delete_forward s = Ok (None, s') -> s' = s).
Proof.
  split; [intros c; apply insert_length|].
  split; [intros c s' H; apply delete_length in H; exact H|].
  split; [intros c s' H; apply delete_forward_length in H; exact H|].
  split; [apply delete_None | apply delete_forward_None].
Qed.

(** C5 (fails on the code).  [insert] is meant to place the character at
    the cursor position.  In [shifted_state] the text is ["ab"] and the
    cursor is 0, yet [start_buffer] still holds ['a']: [insert('X')] gives
    ["aXb"], where [text[0:0] + 'X' + text[0:]] is ["Xab"]. *)
Theorem C5_insert_misses_cursor :
  run 0 [Insert "a"; Insert "b"; MoveCursorLeft; MoveCursorLeft]
      (__init__ (s_ "") 1) = Ok shifted_state /\
  get_text shifted_state = s_ "ab" /\
  get_cursor_position shifted_state = 0 /\
  get_text (insert (s_ "X") shifted_state) = s_ "aXb" /\
  slice_to (get_text shifted_state) 0 ++ s_ "X"
    ++ slice_from (get_text shifted_state) 0 = s_ "Xab" /\
  get_cursor_position (insert (s_ "X") shifted_state) = 1.
Proof. repeat split. Qed.

(** Where the cursor does equal the length of what [start_buffer] spells,
    [insert] splits the text at the cursor. *)
Lemma insert_at_cursor char s :
  get_cursor_position s = len (join (start_buffer s)) ->
  get_text (insert char s) =
  slice_to (get_text s) (get_cursor_position s) ++ char
    ++ slice_from (get_text s) (get_cursor_position s) /\
  get_cursor_position (insert char s) = get_cursor_position s + 1.
Proof.
  intros H. split; [|apply gap_index_insert].
  rewrite get_text_insert, get_text_split, H. unfold slice_to, slice_from, len.
  rewrite Nat2Z.id, firstn_app, skipn_app, Nat.sub_diag, firstn_all, skipn_all.
  simpl. rewrite app_nil_r. reflexivity.
Qed.

(** The invariant bounds the cursor by the length of the text. *)
Lemma inv_cursor_bound s :
  inv s -> 0 <= get_cursor_position s <= len (get_text s).
Proof.
  intros [H0 H1]. unfold get_cursor_position. split; [exact H0|].
  rewrite get_text_split, len_app.
  pose proof (pads_nonneg (end_buffer s)).
  pose proof (chars_le_join (start_buffer s)).
  pose proof (len_nonneg (join (end_buffer s))). lia.
Qed.

(** The bound also holds in the intermediate state that [insert] passes
    through right after [_expand_gap]. *)
Lemma cursor_bound_after_expand_gap s :
  reachable s ->
  0 <= get_cursor_position (_expand_gap s) <= len (get_text (_expand_gap s)).
Proof.
  intros H. apply inv_cursor_bound, inv_expand_gap, reachable_inv, H.
Qed.

(** C6.  In every reachable state the cursor position lies between [0] and
    the length of the text. *)
Theorem C6_cursor_bound s :
  reachable s -> 0 <= get_cursor_position s <= len (get_text s).
Proof.
  intros H. apply inv_cursor_bound, reachable_inv, H.
Qed.

Lemma C6_cursor_bound_witness :
  reachable shifted_state /\
  0 <= get_cursor_position shifted_state <= len (get_text shifted_state).
Proof.
  assert (H : reachable shifted_state).
  { exists (s_ ""), 1, 0%nat,
      [Insert "a"; Insert "b"; MoveCursorLeft; MoveCursorLeft].
    reflexivity. }
  split; [exact H | exact (C6_cursor_bound shifted_state H)].
Defined.

(** C7.  Starting from an empty buffer of any size, after any sequence of
    insertions and nothing else the text is the concatenation of the
    inserted characters in order. *)
Theorem C7_insert_round_trip (size : Z) (chars : list str) :
  get_text (inserts chars (__init__ (s_ "") size)) = join chars.
Proof.
  assert (G : forall s, end_buffer s = [] ->
                get_text (inserts chars s) = get_text s ++ join chars).
  { induction chars as [|c chars IH]; intros s E; simpl.
    - rewrite app_nil_r. reflexivity.
    - unfold inserts in IH. rewrite IH by (rewrite end_buffer_insert; exact E).
      rewrite get_text_insert, get_text_split, E. simpl.
      rewrite !app_nil_r, <- app_assoc. reflexivity. }
  rewrite G by reflexivity. rewrite get_text_init. reflexivity.
Qed.

(** Five insertions into a buffer of size 2, which expands twice. *)
Lemma insert_round_trip_growth :
  get_text (inserts (list_of_str (s_ "hello")) (__init__ (s_ "") 2))
    = s_ "hello" /\
  buffer_size (inserts (list_of_str (s_ "hello")) (__init__ (s_ "") 2)) = 8.
Proof. split; reflexivity. Qed.

(** C8.  [_expand_gap] changes neither the text nor the cursor position,
    in any state. *)
Theorem C8_expand_gap_frame s :
  get_text (_expand_gap s) = get_text s /\
  get_cursor_position (_expand_gap s) = get_cursor_position s.
Proof. split; [apply get_text_expand_gap | reflexivity]. Qed.

(** C9.  In every reachable state [delete] and [delete_forward] return
    without raising; [delete] returns [None] exactly when the cursor is 0,
    [delete_forward] exactly when [end_buffer] is empty, and a call that
    returns [None] leaves every field of the buffer as it was. *)
Theorem C9_delete_none_is_noop s :
  reachable s ->
  (exists r s', delete s = Ok (r, s') /\
                (r = None <-> get_cursor_position s = 0) /\
                (r = None -> s' = s)) /\
  (exists r s', delete_forward s = Ok (r, s') /\
                (r = None <-> end_buffer s = []) /\
                (r = None -> s' = s)).
Proof.
  intros H. apply reachable_inv in H. split.
  - destruct (Z_lt_le_dec 0 (gap_index s)) as [Hpos|Hz].
    + destruct (inv_start_last s H Hpos) as (x & l & Hst).
      rewrite (delete_pos s l x Hpos Hst). do 2 eexists.
      split; [reflexivity|]. unfold get_cursor_position.
      split; [split; [discriminate | lia] | discriminate].
    + rewrite (delete_zero s Hz). do 2 eexists.
      split; [reflexivity|]. unfold get_cursor_position.
      pose proof (inv_nonneg s H).
      split; [split; [lia | reflexivity] | reflexivity].
  - destruct (end_buffer s) as [|x r] eqn:E.
    + rewrite (delete_forward_nil s E). do 2 eexists.
      split; [reflexivity|]. split; [tauto | reflexivity].
    + rewrite (delete_forward_cons s x r E). do 2 eexists.
      split; [reflexivity|].
      split; [split; discriminate | discriminate].
Qed.

Lemma C9_delete_none_is_noop_witness :
  reachable (__init__ (s_ "") default_buffer_size) /\
  (exists r s', delete (__init__ (s_ "") default_buffer_size) = Ok (r, s') /\
                (r = None <->
                 get_cursor_position (__init__ (s_ "") default_buffer_size) = 0) /\
                (r = None -> s' = __init__ (s_ "") default_buffer_size)) /\
  (exists r s',
     delete_forward (__init__ (s_ "") default_buffer_size) = Ok (r, s') /\
     (r = None <-> end_buffer (__init__ (s_ "") default_buffer_size) = []) /\
     (r = None -> s' = __init__ (s_ "") default_buffer_size)).
Proof.
  assert (H : reachable (__init__ (s_ "") default_buffer_size)).
  { exists (s_ ""), default_buffer_size, 0%nat, []. reflexivity. }
  split; [exact H | exact (C9_delete_none_is_noop _ H)].
Defined.

(** C10.  In every reachable state [move_cursor_left] and
    [move_cursor_right] return with the text unchanged; [move_cursor_to]
    never raises, leaves the text unchanged whenever it returns, and does
    return for every target between [0] and
    [gap_index + len(end_buffer)]. *)
Theorem C10_cursor_moves_keep_text s :
  reachable s ->
  (exists s', move_cursor_left s = Ok s' /\ get_text s' = get_text s) /\
  (exists s', move_cursor_right s = Ok s' /\ get_text s' = get_text s) /\
  (forall fuel position,
     move_cursor_to fuel position s <> IndexError /\
     forall s', move_cursor_to fuel position s = Ok s' ->
                get_text s' = get_text s) /\
  (forall position,
     0 <= position <= gap_index s + len (end_buffer s) ->
     exists fuel s', move_cursor_to fuel position s = Ok s' /\
                     get_text s' = get_text s).
Proof.
  intros H. apply reachable_inv in H.
  split; [|split; [|split]].
  - pose proof (inv_move_cursor_left s H) as Hs.
    destruct (move_cursor_left s) as [s'| |] eqn:E; simpl in Hs;
      [|contradiction|].
    + exists s'. split; [reflexivity | apply Hs].
    + exfalso. unfold move_cursor_left in E.
      destruct (gap_index s >? 0); [|discriminate].
      destruct (pop _) as [[? ?]|]; discriminate.
  - pose proof (inv_move_cursor_right s H) as Hs.
    destruct (move_cursor_right s) as [s'| |] eqn:E; simpl in Hs;
      [|contradiction|].
    + exists s'. split; [reflexivity | apply Hs].
    + exfalso. unfold move_cursor_right in E.
      destruct (end_buffer s) eqn:E'; [discriminate|].
      cbn [end_buffer set_gap_index set_gap_length] in E. rewrite E' in E.
      discriminate.
  - intros fuel position.
    pose proof (inv_move_cursor_to fuel position s H) as Hs.
    split.
    + intros E. rewrite E in Hs. exact Hs.
    + intros s' E. rewrite E in Hs. apply Hs.
  - intros position Hpos.
    destruct (move_cursor_to_reaches
                (Z.to_nat (Z.abs (position - gap_index s))) position s H Hpos
                (Nat.le_refl _)) as (s' & E & _).
    exists (Z.to_nat (Z.abs (position - gap_index s))), s'.
    split; [exact E|].
    pose proof (inv_move_cursor_to
                  (Z.to_nat (Z.abs (position - gap_index s))) position s H)
      as Hs.
    rewrite E in Hs. apply Hs.
Qed.

Lemma C10_cursor_moves_keep_text_witness :
  reachable shifted_state /\
  (exists s', move_cursor_left shifted_state = Ok s' /\
              get_text s' = get_text shifted_state) /\
  (exists s', move_cursor_right shifted_state = Ok s' /\
              get_text s' = get_text shifted_state) /\
  (forall fuel position,
     move_cursor_to fuel position shifted_state <> IndexError /\
     forall s', move_cursor_to fuel position shifted_state = Ok s' ->
                get_text s' = get_text shifted_state) /\
  (forall position,
     0 <= position <= gap_index shifted_state + len (end_buffer shifted_state) ->
     exists fuel s', move_cursor_to fuel position shifted_state = Ok s' /\
                     get_text s' = get_text shifted_state).
Proof.
  assert (H : reachable shifted_state).
  { exists (s_ ""), 1, 0%nat,
      [Insert "a"; Insert "b"; MoveCursorLeft; MoveCursorLeft].
    reflexivity. }
  split; [exact H | exact (C10_cursor_moves_keep_text shifted_state H)].
Defined.

(** Typing a text is the same as folding [insert] over its characters. *)
Lemma run_typing fuel (text : str) s :
  run fuel (map Insert text) s = Ok (inserts (list_of_str text) s).
Proof.
  revert s; induction text as [|c text IH]; intros s; simpl; [reflexivity|].
  apply IH.
Qed.

(** ** Further properties of the buffer *)

(** *** Construction *)

(** X1.  A buffer built from a text gives that text back, whatever the
    buffer size, with the cursor at the end of the text and nothing after
    it.  (This is what [open_file] followed by [save_file] relies on.) *)
Theorem init_round_trip (text : str) (size : Z) :
  get_text (__init__ text size) = text /\
  get_cursor_position (__init__ text size) = len text /\
  end_buffer (__init__ text size) = [] /\
  get_cursor_position (__init__ text size) = len (get_text (__init__ text size)).
Proof.
  rewrite get_text_init. repeat split.
Qed.

(** *** How the operations compose *)

Lemma run_app fuel ops1 ops2 s :
  run fuel (ops1 ++ ops2) s = (s' <- run fuel ops1 s ;; run fuel ops2 s').
Proof.
  revert s; induction ops1 as [|o ops1 IH]; intros s; simpl; [reflexivity|].
  destruct (exec fuel o s); simpl; auto.
Qed.

Lemma move_cursor_right_after_left s l x :
  move_cursor_right
    (mk (buffer_size s) l (gap_index s - 1) (gap_length s + 1)
        (x :: end_buffer s))
  = Ok (mk (buffer_size s) (l ++ [x]) (gap_index s) (gap_length s)
           (end_buffer s)).
Proof.
  unfold move_cursor_right. simpl. unfold_ops. f_equal. f_equal; lia.
Qed.

(** X2.  From a reachable state, [k] calls of [move_cursor_left] followed
    by [k] calls of [move_cursor_right] give back the very same state
    (every field), provided the cursor is at least [k]. *)
Theorem left_then_right_restores (fuel : nat) (k : nat) (s : t) :
  reachable s -> Z.of_nat k <= get_cursor_position s ->
  run fuel (repeat MoveCursorLeft k ++ repeat MoveCursorRight k) s = Ok s.
Proof.
  intros H. apply reachable_inv in H. unfold get_cursor_position.
  revert s H; induction k as [|k IH]; intros s Hinv Hk; [reflexivity|].
  assert (Hpos : 0 < gap_index s) by lia.
  destruct (inv_start_last s Hinv Hpos) as (x & l & Hst).
  pose proof (inv_move_cursor_left s Hinv) as Hsafe.
  rewrite (move_cursor_left_pos s l x Hpos Hst) in Hsafe. simpl in Hsafe.
  destruct Hsafe as [Hinv1 _].
  change (repeat MoveCursorRight (S k))
    with (MoveCursorRight :: repeat MoveCursorRight k).
  rewrite repeat_cons, app_assoc.
  change (repeat MoveCursorLeft (S k) ++ repeat MoveCursorRight k)
    with (MoveCursorLeft :: (repeat MoveCursorLeft k ++ repeat MoveCursorRight k)).
  rewrite run_app. simpl run at 1. simpl exec.
  rewrite (move_cursor_left_pos s l x Hpos Hst). simpl bind at 1.
  rewrite IH; [|exact Hinv1 | simpl; lia].
  cbn [bind run exec]. rewrite move_cursor_right_after_left. cbn [bind].
  destruct s as [bs st gi gl en]. simpl in *. subst st. reflexivity.
Qed.

Lemma left_then_right_restores_witness :
  reachable after_growth /\ Z.of_nat 2 <= get_cursor_position after_growth /\
  run 0 (repeat MoveCursorLeft 2 ++ repeat MoveCursorRight 2) after_growth
    = Ok after_growth.
Proof.
  assert (H : reachable after_growth).
  { exists (s_ ""), 1, 0%nat, [Insert "a"; Insert "b"]. reflexivity. }
  assert (H2 : Z.of_nat 2 <= get_cursor_position after_growth)
    by (vm_compute; discriminate).
  split; [exact H|]. split; [exact H2|].
  exact (left_then_right_restores 0 2 after_growth H H2).
Defined.

(** X3.  [k] calls of [move_cursor_right] followed by [k] calls of
    [move_cursor_left] give back the very same state, provided
    [end_buffer] holds at least [k] elements and the cursor is not
    negative. *)
Theorem right_then_left_restores (fuel : nat) (k : nat) (s : t) :
  0 <= get_cursor_position s -> Z.of_nat k <= len (end_buffer s) ->
  run fuel (repeat MoveCursorRight k ++ repeat MoveCursorLeft k) s = Ok s.
Proof.
  unfold get_cursor_position.
  revert s; induction k as [|k IH]; intros s Hgi Hk; [reflexivity|].
  destruct (end_buffer s) as [|x r] eqn:E.
  { change (len []) with 0 in Hk. lia. }
  rewrite len_cons in Hk.
  change (repeat MoveCursorLeft (S k))
    with (MoveCursorLeft :: repeat MoveCursorLeft k).
  rewrite repeat_cons, app_assoc.
  change (repeat MoveCursorRight (S k) ++ repeat MoveCursorLeft k)
    with (MoveCursorRight :: (repeat MoveCursorRight k ++ repeat MoveCursorLeft k)).
  rewrite run_app. simpl run at 1. simpl exec.
  rewrite (move_cursor_right_cons s x r E). simpl bind at 1.
  rewrite IH; [|simpl; lia | simpl; lia].
  cbn [bind run exec].
  rewrite (move_cursor_left_pos _ (start_buffer s) x);
    [|simpl; lia | reflexivity].
  cbn [bind buffer_size gap_index gap_length end_buffer].
  destruct s as [bs st gi gl en]. simpl in *. subst en.
  f_equal. f_equal; lia.
Qed.

Lemma right_then_left_restores_witness :
  0 <= get_cursor_position shifted_state /\
  Z.of_nat 2 <= len (end_buffer shifted_state) /\
  run 0 (repeat MoveCursorRight 2 ++ repeat MoveCursorLeft 2) shifted_state
    = Ok shifted_state.
Proof.
  assert (H1 : 0 <= get_cursor_position shifted_state)
    by (vm_compute; discriminate).
  assert (H2 : Z.of_nat 2 <= len (end_buffer shifted_state))
    by (vm_compute; discriminate).
  split; [exact H1|]. split; [exact H2|].
  exact (right_then_left_restores 0 2 shifted_state H1 H2).
Defined.

(** X4.  [delete] right after [insert] returns the inserted element and
    undoes the insertion: text, cursor and [end_buffer] are as before, and
    when the insertion did not expand the gap the whole state is. *)
Theorem delete_undoes_insert (char : str) (s : t) :
  0 <= get_cursor_position s ->
  exists s', delete (insert char s) = Ok (Some char, s') /\
             get_text s' = get_text s /\
             get_cursor_position s' = get_cursor_position s /\
             end_buffer s' = end_buffer s /\
             (gap_length s <> 0 -> s' = s).
Proof.
  unfold get_cursor_position. intros Hgi.
  destruct s as [bs st gi gl en]. simpl in Hgi.
  unfold insert. simpl gap_length. destruct (gl =? 0) eqn:Hgl.
  - eexists. split.
    + apply delete_pos; [simpl; lia | reflexivity].
    + simpl. unfold get_text; simpl.
      rewrite !join_app, join_list_mul_empty, app_nil_r.
      split; [reflexivity|]. split; [lia|]. split; [reflexivity|].
      intros Hne. apply Z.eqb_eq in Hgl. contradiction.
  - eexists. split.
    + apply delete_pos; [simpl; lia | reflexivity].
    + simpl. split; [reflexivity|]. split; [lia|]. split; [reflexivity|].
      intros _. f_equal; lia.
Qed.

Lemma delete_undoes_insert_witness :
  0 <= get_cursor_position after_growth /\
  exists s', delete (insert (s_ "c") after_growth) = Ok (Some (s_ "c"), s') /\
             get_text s' = get_text after_growth /\
             get_cursor_position s' = get_cursor_position after_growth /\
             end_buffer s' = end_buffer after_growth /\
             (gap_length after_growth <> 0 -> s' = after_growth).
Proof.
  assert (H : 0 <= get_cursor_position after_growth)
    by (vm_compute; discriminate).
  split; [exact H | exact (delete_undoes_insert (s_ "c") after_growth H)].
Defined.

(** X5.  In a reachable state with a positive cursor, [move_cursor_left]
    followed by [delete_forward] removes and returns the same element as
    [delete] and ends in the same state, except that [gap_length] has been
    incremented twice instead of once. *)
Theorem left_delete_forward_is_delete (s : t) :
  reachable s -> 0 < get_cursor_position s ->
  exists x s1 s2,
    delete s = Ok (Some x, s1) /\
    move_cursor_left s = Ok s2 /\
    delete_forward s2 = Ok (Some x, set_gap_length (gap_length s1 + 1) s1).
Proof.
  intros H Hpos. apply reachable_inv in H. unfold get_cursor_position in Hpos.
  destruct (inv_start_last s H Hpos) as (x & l & Hst).
  exists x. do 2 eexists.
  split; [apply (delete_pos s l x Hpos Hst)|].
  split; [apply (move_cursor_left_pos s l x Hpos Hst)|].
  reflexivity.
Qed.

Lemma left_delete_forward_is_delete_witness :
  reachable after_growth /\ 0 < get_cursor_position after_growth /\
  exists x s1 s2,
    delete after_growth = Ok (Some x, s1) /\
    move_cursor_left after_growth = Ok s2 /\
    delete_forward s2 = Ok (Some x, set_gap_length (gap_length s1 + 1) s1).
Proof.
  assert (H : reachable after_growth).
  { exists (s_ ""), 1, 0%nat, [Insert "a"; Insert "b"]. reflexivity. }
  assert (H2 : 0 < get_cursor_position after_growth) by reflexivity.
  split; [exact H|]. split; [exact H2|].
  exact (left_delete_forward_is_delete after_growth H H2).
Defined.

(** *** For which targets [move_cursor_to] returns *)

Lemma move_cursor_left_gap_index s s' :
  move_cursor_left s = Ok s' ->
  (0 < gap_index s /\ gap_index s' = gap_index s - 1) \/ (gap_index s <= 0 /\ s' = s).
Proof.
  unfold move_cursor_left. destruct (gap_index s >? 0) eqn:Hc.
  - apply Z.gtb_lt in Hc. cbn [start_buffer set_gap_index set_gap_length].
    destruct (pop (start_buffer s)) as [[x r]|]; [|discriminate].
    intros H. injection H as <-. left. split; [lia | reflexivity].
  - rewrite Z.gtb_ltb in Hc. apply Z.ltb_ge in Hc.
    intros H. injection H as <-. right. split; [exact Hc | reflexivity].
Qed.

Lemma move_cursor_right_measure s :
  exists s', move_cursor_right s = Ok s' /\
    gap_index s' + len (end_buffer s') = gap_index s + len (end_buffer s) /\
    (gap_index s' = gap_index s + 1 \/ s' = s).
Proof.
  destruct (end_buffer s) as [|x r] eqn:E.
  - exists s. rewrite (move_cursor_right_nil s E), E. auto.
  - eexists. rewrite (move_cursor_right_cons s x r E).
    split; [reflexivity|]. simpl. rewrite len_cons. split; [lia | left; lia].
Qed.

Lemma while_left_negative fuel position s :
  inv s -> position < 0 -> while_left fuel position s = OutOfFuel.
Proof.
  revert s; induction fuel as [|fuel IH]; intros s Hinv Hneg; simpl;
    pose proof (inv_nonneg s Hinv);
    replace (gap_index s >? position) with true
      by (symmetry; apply Z.gtb_lt; lia); [reflexivity|].
  pose proof (inv_move_cursor_left s Hinv) as Hs.
  destruct (move_cursor_left s) as [s1| |]; simpl in Hs |- *;
    [|contradiction|reflexivity].
  apply IH; [apply Hs | exact Hneg].
Qed.

Lemma while_right_beyond fuel position s :
  gap_index s + len (end_buffer s) < position ->
  while_right fuel position s = OutOfFuel.
Proof.
  revert s; induction fuel as [|fuel IH]; intros s Hlt; simpl;
    pose proof (len_nonneg (end_buffer s));
    replace (gap_index s <? position) with true
      by (symmetry; apply Z.ltb_lt; lia); [reflexivity|].
  destruct (move_cursor_right_measure s) as (s1 & -> & Hm & _). simpl.
  apply IH. lia.
Qed.

Lemma while_left_stops_on_target fuel position s s' :
  position <= gap_index s -> while_left fuel position s = Ok s' ->
  gap_index s' = position.
Proof.
  revert s; induction fuel as [|fuel IH]; intros s Hle; simpl;
    destruct (gap_index s >? position) eqn:Hc; try discriminate;
    try (rewrite Z.gtb_ltb in Hc; apply Z.ltb_ge in Hc;
         intros H; injection H as <-; lia).
  apply Z.gtb_lt in Hc.
  destruct (move_cursor_left s) as [s1| |] eqn:E; simpl; try discriminate.
  apply IH. destruct (move_cursor_left_gap_index s s1 E) as [[_ ->]|[_ ->]]; lia.
Qed.

Lemma while_right_stops_on_target fuel position s s' :
  gap_index s <= position -> while_right fuel position s = Ok s' ->
  gap_index s' = position.
Proof.
  revert s; induction fuel as [|fuel IH]; intros s Hle; simpl;
    destruct (gap_index s <? position) eqn:Hc; try discriminate;
    try (apply Z.ltb_ge in Hc; intros H; injection H as <-; lia).
  apply Z.ltb_lt in Hc.
  destruct (move_cursor_right_measure s) as (s1 & -> & _ & Hg). simpl.
  apply IH. destruct Hg as [-> | ->]; lia.
Qed.

Lemma move_cursor_to_domain (position : Z) (s : t) :
  inv s ->
  ((exists fuel s', move_cursor_to fuel position s = Ok s') <->
   0 <= position <= gap_index s + len (end_buffer s)) /\
  (forall fuel,
     ~ (0 <= position <= gap_index s + len (end_buffer s)) ->
     move_cursor_to fuel position s = OutOfFuel) /\
  (forall fuel s', move_cursor_to fuel position s = Ok s' ->
                   get_cursor_position s' = position).
Proof.
  intros H.
  pose proof (inv_nonneg s H) as Hgi.
  pose proof (len_nonneg (end_buffer s)) as Hlen.
  assert (Hout : forall fuel,
             ~ (0 <= position <= gap_index s + len (end_buffer s)) ->
             move_cursor_to fuel position s = OutOfFuel).
  { intros fuel Hn. unfold move_cursor_to.
    destruct (Z_lt_le_dec position 0) as [Hneg|Hnn].
    - replace (position <? gap_index s) with true
        by (symmetry; apply Z.ltb_lt; lia).
      apply while_left_negative; assumption.
    - replace (position <? gap_index s) with false
        by (symmetry; apply Z.ltb_ge; lia).
      replace (position >? gap_index s) with true
        by (symmetry; apply Z.gtb_lt; lia).
      apply while_right_beyond. lia. }
  split; [split|split].
  - intros (fuel & s' & E).
    destruct (Z_le_dec 0 position) as [H0|H0];
      [destruct (Z_le_dec position (gap_index s + len (end_buffer s))) as [H1|H1]|];
      [lia| |]; rewrite Hout in E by lia; discriminate.
  - intros Hr.
    destruct (move_cursor_to_reaches
                (Z.to_nat (Z.abs (position - gap_index s))) position s H Hr
                (Nat.le_refl _)) as (s' & E & _).
    eauto.
  - exact Hout.
  - intros fuel s'. unfold move_cursor_to, get_cursor_position.
    destruct (position <? gap_index s) eqn:Hl.
    + apply Z.ltb_lt in Hl. apply while_left_stops_on_target. lia.
    + apply Z.ltb_ge in Hl. destruct (position >? gap_index s) eqn:Hr.
      * apply Z.gtb_lt in Hr. apply while_right_stops_on_target. lia.
      * rewrite Z.gtb_ltb in Hr. apply Z.ltb_ge in Hr.
        intros E. injection E as <-. lia.
Qed.

(** X6.  In a reachable state [move_cursor_to(position)] returns exactly
    when [0 <= position <= gap_index + len(end_buffer)]; for any other
    target its loop never ends.  Whenever it returns the cursor is on the
    target. *)
Theorem move_cursor_to_returns_iff (position : Z) (s : t) :
  reachable s ->
  ((exists fuel s', move_cursor_to fuel position s = Ok s') <->
   0 <= position <= gap_index s + len (end_buffer s)) /\
  (forall fuel,
     ~ (0 <= position <= gap_index s + len (end_buffer s)) ->
     move_cursor_to fuel position s = OutOfFuel) /\
  (forall fuel s', move_cursor_to fuel position s = Ok s' ->
                   get_cursor_position s' = position).
Proof.
  intros H. apply move_cursor_to_domain, reachable_inv, H.
Qed.

Lemma move_cursor_to_returns_iff_witness :
  reachable stuck_state /\
  ((exists fuel s', move_cursor_to fuel 0 stuck_state = Ok s') <->
   0 <= 0 <= gap_index stuck_state + len (end_buffer stuck_state)) /\
  (forall fuel,
     ~ (0 <= 0 <= gap_index stuck_state + len (end_buffer stuck_state)) ->
     move_cursor_to fuel 0 stuck_state = OutOfFuel) /\
  (forall fuel s', move_cursor_to fuel 0 stuck_state = Ok s' ->
                   get_cursor_position s' = 0).
Proof.
  assert (H : reachable stuck_state).
  { exists (s_ ""), 1, 0%nat, [Insert "a"; Insert "b"; Delete; Delete].
    reflexivity. }
  split; [exact H | exact (move_cursor_to_returns_iff 0 stuck_state H)].
Defined.

(** *** The results of the primitive operations, case by case *)

Lemma delete_inv s r s' :
  delete s = Ok (r, s') ->
  (r = None /\ gap_index s <= 0 /\ s' = s) \/
  (exists x l, r = Some x /\ 0 < gap_index s /\ start_buffer s = l ++ [x] /\
               s' = mk (buffer_size s) l (gap_index s - 1) (gap_length s + 1)
                       (end_buffer s)).
Proof.
  unfold delete. destruct (gap_index s >? 0) eqn:Hc.
  - apply Z.gtb_lt in Hc. cbn [start_buffer set_gap_index set_gap_length].
    destruct (pop (start_buffer s)) as [[x l]|] eqn:E; [|discriminate].
    intros H. injection H as <- <-. right. exists x, l.
    apply pop_Some in E. repeat split; [lia | exact E].
  - rewrite Z.gtb_ltb in Hc. apply Z.ltb_ge in Hc.
    intros H. injection H as <- <-. left. auto.
Qed.

Lemma delete_forward_inv s r s' :
  delete_forward s = Ok (r, s') ->
  (r = None /\ end_buffer s = [] /\ s' = s) \/
  (exists x l, r = Some x /\ end_buffer s = x :: l /\
               s' = mk (buffer_size s) (start_buffer s) (gap_index s)
                       (gap_length s + 1) l).
Proof.
  destruct (end_buffer s) as [|x l] eqn:E.
  - rewrite (delete_forward_nil s E). intros H. injection H as <- <-. auto.
  - rewrite (delete_forward_cons s x l E). intros H. injection H as <- <-.
    right. exists x, l. auto.
Qed.

Lemma move_cursor_left_inv s s' :
  move_cursor_left s = Ok s' ->
  (gap_index s <= 0 /\ s' = s) \/
  (exists x l, 0 < gap_index s /\ start_buffer s = l ++ [x] /\
               s' = mk (buffer_size s) l (gap_index s - 1) (gap_length s + 1)
                       (x :: end_buffer s)).
Proof.
  unfold move_cursor_left. destruct (gap_index s >? 0) eqn:Hc.
  - apply Z.gtb_lt in Hc. cbn [start_buffer set_gap_index set_gap_length].
    destruct (pop (start_buffer s)) as [[x l]|] eqn:E; [|discriminate].
    intros H. injection H as <-. right. exists x, l.
    apply pop_Some in E. repeat split; [lia | exact E].
  - rewrite Z.gtb_ltb in Hc. apply Z.ltb_ge in Hc.
    intros H. injection H as <-. left. auto.
Qed.

Lemma move_cursor_right_inv s s' :
  move_cursor_right s = Ok s' ->
  (end_buffer s = [] /\ s' = s) \/
  (exists x l, end_buffer s = x :: l /\
               s' = mk (buffer_size s) (start_buffer s ++ [x])
                       (gap_index s + 1) (gap_length s - 1) l).
Proof.
  destruct (end_buffer s) as [|x l] eqn:E.
  - rewrite (move_cursor_right_nil s E). intros H. injection H as <-. auto.
  - rewrite (move_cursor_right_cons s x l E). intros H. injection H as <-.
    right. exists x, l. auto.
Qed.

(** A property kept by single cursor moves is kept by [move_cursor_to]. *)
Section LoopInvariant.

Variable P : t -> Prop.
Hypothesis P_left : forall s s', P s -> move_cursor_left s = Ok s' -> P s'.
Hypothesis P_right : forall s s', P s -> move_cursor_right s = Ok s' -> P s'.

Lemma while_left_preserves fuel position s s' :
  P s -> while_left fuel position s = Ok s' -> P s'.
Proof.
  revert s; induction fuel as [|fuel IH]; intros s HP; simpl;
    destruct (gap_index s >? position); try discriminate;
    try (intros H; injection H as <-; exact HP).
  destruct (move_cursor_left s) as [s1| |] eqn:E; simpl; try discriminate.
  apply IH. exact (P_left s s1 HP E).
Qed.

Lemma while_right_preserves fuel position s s' :
  P s -> while_right fuel position s = Ok s' -> P s'.
Proof.
  revert s; induction fuel as [|fuel IH]; intros s HP; simpl;
    destruct (gap_index s <? position); try discriminate;
    try (intros H; injection H as <-; exact HP).
  destruct (move_cursor_right s) as [s1| |] eqn:E; simpl; try discriminate.
  apply IH. exact (P_right s s1 HP E).
Qed.

Lemma move_cursor_to_preserves fuel position s s' :
  P s -> move_cursor_to fuel position s = Ok s' -> P s'.
Proof.
  intros HP. unfold move_cursor_to.
  destruct (position <? gap_index s); [apply while_left_preserves; exact HP|].
  destruct (position >? gap_index s); [apply while_right_preserves; exact HP|].
  intros H; injection H as <-; exact HP.
Qed.

End LoopInvariant.

(** *** Bookkeeping: what the statistics add up to *)

Lemma expand_gap_fields s :
  _expand_gap s =
  mk (buffer_size s * 2)
     (start_buffer s ++ list_mul (s_ "") (buffer_size s))
     (gap_index s) (gap_length s + buffer_size s) (end_buffer s).
Proof.
  destruct s as [bs st gi gl en]. unfold_ops.
  replace (bs * 2 - bs) with bs by lia. reflexivity.
Qed.

Lemma len_list_of_str text : len (list_of_str text) = len text.
Proof. unfold len, list_of_str. rewrite length_map. reflexivity. Qed.

Lemma len_list_mul {A : Type} (x : A) n : len (list_mul x n) = Z.max 0 n.
Proof. unfold list_mul, len. rewrite repeat_length. lia. Qed.

Lemma insert_fields char s :
  insert char s =
  if gap_length s =? 0 then
    mk (buffer_size s * 2)
       ((start_buffer s ++ list_mul (s_ "") (buffer_size s)) ++ [char])
       (gap_index s + 1) (gap_length s + buffer_size s - 1) (end_buffer s)
  else
    mk (buffer_size s) (start_buffer s ++ [char]) (gap_index s + 1)
       (gap_length s - 1) (end_buffer s).
Proof.
  unfold insert. destruct (gap_length s =? 0); [|reflexivity].
  rewrite expand_gap_fields. reflexivity.
Qed.

Lemma padding_balance_exec fuel o s s' :
  exec fuel o s = Ok s' -> padding_balance s' = padding_balance s.
Proof.
  assert (HL : forall s s', padding_balance s = padding_balance s ->
             move_cursor_left s = Ok s' -> padding_balance s' = padding_balance s).
  { intros s0 s1 _ E. apply move_cursor_left_inv in E.
    destruct E as [[_ ->]|(x & l & _ & Hst & ->)]; [reflexivity|].
    unfold padding_balance; simpl. rewrite Hst, len_app. change (len [x]) with 1. lia. }
  assert (HR : forall s s', padding_balance s = padding_balance s ->
             move_cursor_right s = Ok s' -> padding_balance s' = padding_balance s).
  { intros s0 s1 _ E. apply move_cursor_right_inv in E.
    destruct E as [[_ ->]|(x & l & _ & ->)]; [reflexivity|].
    unfold padding_balance; simpl. rewrite len_app. change (len [x]) with 1. lia. }
  destruct o; simpl.
  - intros H; injection H as <-. rewrite insert_fields.
    unfold padding_balance. destruct (gap_length s =? 0); simpl;
      rewrite !len_app; try rewrite len_list_mul; change (len [[c]]) with 1; lia.
  - destruct (delete s) as [[r s1]| |] eqn:E; simpl; try discriminate.
    intros H; injection H as <-. apply delete_inv in E.
    destruct E as [(_ & _ & ->)|(x & l & _ & _ & Hst & ->)]; [reflexivity|].
    unfold padding_balance; simpl. rewrite Hst, len_app. change (len [x]) with 1. lia.
  - destruct (delete_forward s) as [[r s1]| |] eqn:E; simpl; try discriminate.
    intros H; injection H as <-. apply delete_forward_inv in E.
    destruct E as [(_ & _ & ->)|(x & l & _ & _ & ->)]; reflexivity.
  - apply HL; reflexivity.
  - apply HR; reflexivity.
  - apply (move_cursor_to_preserves
             (fun s1 => padding_balance s1 = padding_balance s)).
    + intros s0 s1 H0 E. rewrite <- H0. apply HL; [reflexivity | exact E].
    + intros s0 s1 H0 E. rewrite <- H0. apply HR; [reflexivity | exact E].
    + reflexivity.
Qed.

Lemma padding_balance_run fuel ops s s' :
  run fuel ops s = Ok s' -> padding_balance s' = padding_balance s.
Proof.
  revert s; induction ops as [|o ops IH]; intros s; simpl.
  - intros H; injection H as <-; reflexivity.
  - destruct (exec fuel o s) as [s1| |] eqn:E; simpl; try discriminate.
    intros H. rewrite (IH s1 H). exact (padding_balance_exec fuel o s s1 E).
Qed.

(** X7.  After any sequence of calls on [GapBuffer(text, size)], the
    statistics satisfy
    [start_length - cursor_pos = max(0, total_size) - max(0, size)]:
    [start_buffer] is longer than the cursor position by exactly the amount
    by which the buffer size has grown. *)
Theorem stats_padding_balance fuel ops (text : str) (size : Z) (s : t) :
  run fuel ops (__init__ text size) = Ok s ->
  start_length (get_stats s) - cursor_pos (get_stats s) =
  Z.max 0 (total_size (get_stats s)) - Z.max 0 size.
Proof.
  intros H. apply padding_balance_run in H.
  unfold padding_balance in H. simpl in H |- *.
  rewrite len_list_of_str in H. lia.
Qed.

Lemma stats_padding_balance_witness :
  run 0 [Insert "a"; Insert "b"; Delete] (__init__ (s_ "") 1) = Ok padded_state /\
  start_length (get_stats padded_state) - cursor_pos (get_stats padded_state) =
  Z.max 0 (total_size (get_stats padded_state)) - Z.max 0 1.
Proof.
  assert (H : run 0 [Insert "a"; Insert "b"; Delete] (__init__ (s_ "") 1)
              = Ok padded_state) by reflexivity.
  split; [exact H|].
  exact (stats_padding_balance 0 _ (s_ "") 1 padded_state H).
Defined.

Lemma gap_excess_left s s' :
  move_cursor_left s = Ok s' -> gap_excess s' = gap_excess s.
Proof.
  intros E. apply move_cursor_left_inv in E.
  destruct E as [[_ ->]|(x & l & _ & _ & ->)]; [reflexivity|].
  unfold gap_excess; simpl. lia.
Qed.

Lemma gap_excess_right s s' :
  move_cursor_right s = Ok s' -> gap_excess s' = gap_excess s.
Proof.
  intros E. apply move_cursor_right_inv in E.
  destruct E as [[_ ->]|(x & l & _ & ->)]; [reflexivity|].
  unfold gap_excess; simpl. lia.
Qed.

Lemma gap_excess_exec fuel o s s' :
  exec fuel o s = Ok s' ->
  gap_excess s <= gap_excess s' /\
  (o <> DeleteForward -> gap_excess s' = gap_excess s).
Proof.
  assert (Heq : forall a b : Z, a = b -> b <= a /\ (o <> DeleteForward -> a = b))
    by (intros a b ->; split; [lia | reflexivity]).
  destruct o; simpl.
  - intros H; injection H as <-. apply Heq. rewrite insert_fields.
    unfold gap_excess. destruct (gap_length s =? 0); simpl; lia.
  - destruct (delete s) as [[r s1]| |] eqn:E; simpl; try discriminate.
    intros H; injection H as <-. apply Heq. apply delete_inv in E.
    destruct E as [(_ & _ & ->)|(x & l & _ & _ & _ & ->)]; [reflexivity|].
    unfold gap_excess; simpl. lia.
  - destruct (delete_forward s) as [[r s1]| |] eqn:E; simpl; try discriminate.
    intros H; injection H as <-. apply delete_forward_inv in E.
    destruct E as [(_ & _ & ->)|(x & l & _ & _ & ->)].
    + split; [lia | reflexivity].
    + unfold gap_excess; simpl. split; [lia | intros Hn; contradiction].
  - intros E. apply Heq, gap_excess_left, E.
  - intros E. apply Heq, gap_excess_right, E.
  - intros E. apply Heq.
    apply (move_cursor_to_preserves (fun s1 => gap_excess s1 = gap_excess s))
      with (fuel := fuel) (position := position) (s := s);
      [| |reflexivity|exact E].
    + intros s0 s1 H0 E1. rewrite <- H0. apply gap_excess_left, E1.
    + intros s0 s1 H0 E1. rewrite <- H0. apply gap_excess_right, E1.
Qed.

Lemma gap_excess_run fuel ops s s' :
  run fuel ops s = Ok s' ->
  gap_excess s <= gap_excess s' /\
  (no_delete_forward ops = true -> gap_excess s' = gap_excess s).
Proof.
  revert s; induction ops as [|o ops IH]; intros s; simpl.
  - intros H; injection H as <-. split; [lia | reflexivity].
  - destruct (exec fuel o s) as [s1| |] eqn:E; simpl; try discriminate.
    intros H. destruct (IH s1 H) as [IH1 IH2].
    destruct (gap_excess_exec fuel o s s1 E) as [E1 E2].
    split; [lia|]. intros Hn.
    destruct o; try discriminate; rewrite IH2, E2 by (assumption || discriminate);
      reflexivity.
Qed.

(** X8.  After any sequence of calls on a fresh buffer, [gap_length] is at
    least [buffer_size - gap_index]; it is exactly that when the sequence
    contains no [delete_forward].  (Each [delete_forward] that removes an
    element adds one to [gap_length] and nothing ever takes it back.) *)
Theorem gap_length_accounting fuel ops (text : str) (size : Z) (s : t) :
  run fuel ops (__init__ text size) = Ok s ->
  buffer_size s - gap_index s <= gap_length s /\
  (no_delete_forward ops = true -> gap_length s = buffer_size s - gap_index s).
Proof.
  intros H. apply gap_excess_run in H. unfold gap_excess in H. simpl in H.
  destruct H as [H1 H2]. split; [lia|]. intros Hn. specialize (H2 Hn). lia.
Qed.

Lemma gap_length_accounting_witness :
  run 0 [Insert "a"; Insert "b"; MoveCursorLeft; MoveCursorLeft]
      (__init__ (s_ "") 1) = Ok shifted_state /\
  buffer_size shifted_state - gap_index shifted_state
    <= gap_length shifted_state /\
  (no_delete_forward [Insert "a"; Insert "b"; MoveCursorLeft; MoveCursorLeft]
     = true ->
   gap_length shifted_state = buffer_size shifted_state - gap_index shifted_state).
Proof.
  assert (H : run 0 [Insert "a"; Insert "b"; MoveCursorLeft; MoveCursorLeft]
                  (__init__ (s_ "") 1) = Ok shifted_state) by reflexivity.
  split; [exact H|].
  exact (gap_length_accounting 0 _ (s_ "") 1 shifted_state H).
Defined.




(** *** Buffers without padding behave like a text with a cursor *)

Lemma single_inv x : single x = true -> exists c, x = [c].
Proof.
  destruct x as [|c [|c' x]]; simpl; try discriminate. eauto.
Qed.

Lemma forallb_single_join l : forallb single l = true -> len (join l) = len l.
Proof.
  induction l as [|x l IH]; simpl; [reflexivity|].
  intros H. apply andb_true_iff in H as [Hx Hl].
  destruct (single_inv x Hx) as (c & ->).
  change ([c] ++ join l) with (c :: join l).
  rewrite !len_cons, IH by exact Hl. reflexivity.
Qed.

Lemma forallb_single_chars l :
  forallb single l = true -> chars l = len l /\ pads l = 0.
Proof.
  induction l as [|x l IH]; simpl; [split; reflexivity|].
  intros H. apply andb_true_iff in H as [Hx Hl].
  destruct (single_inv x Hx) as (c & ->). destruct (IH Hl) as [IH1 IH2].
  rewrite chars_cons, pads_cons, len_cons. simpl is_pad. cbv iota. lia.
Qed.

Lemma unpadded_fields s :
  unpadded s = true <->
  forallb single (start_buffer s) = true /\
  forallb single (end_buffer s) = true /\
  gap_index s = len (start_buffer s).
Proof.
  unfold unpadded. rewrite !andb_true_iff, Z.eqb_eq. tauto.
Qed.

Lemma unpadded_inv s : unpadded s = true -> inv s.
Proof.
  intros H. apply unpadded_fields in H as (Hs & He & Hgi).
  destruct (forallb_single_chars _ Hs) as [Hc _].
  destruct (forallb_single_chars _ He) as [_ Hp].
  split; [rewrite Hgi; apply len_nonneg | lia].
Qed.

Lemma unpadded_lengths s :
  unpadded s = true ->
  len (join (start_buffer s)) = gap_index s /\
  len (join (end_buffer s)) = len (end_buffer s) /\
  len (get_text s) = gap_index s + len (end_buffer s).
Proof.
  intros H. apply unpadded_fields in H as (Hs & He & Hgi).
  rewrite get_text_split, len_app, !forallb_single_join by assumption.
  lia.
Qed.

Lemma unpadded_init text size : unpadded (__init__ text size) = true.
Proof.
  apply unpadded_fields. simpl. rewrite len_list_of_str.
  split; [|split; reflexivity].
  induction text as [|c text IH]; [reflexivity | exact IH].
Qed.

Lemma forallb_single_snoc l x :
  forallb single (l ++ [x]) = true <-> forallb single l = true /\ single x = true.
Proof.
  rewrite forallb_app. simpl. rewrite !andb_true_iff. tauto.
Qed.

Lemma unpadded_left s s' :
  unpadded s = true -> move_cursor_left s = Ok s' -> unpadded s' = true.
Proof.
  intros H E. apply move_cursor_left_inv in E.
  destruct E as [[_ ->]|(x & l & _ & Hst & ->)]; [exact H|].
  apply unpadded_fields in H as (Hs & He & Hgi). apply unpadded_fields; simpl.
  rewrite Hst in Hs, Hgi. apply forallb_single_snoc in Hs as [Hl Hx].
  rewrite len_app in Hgi. change (len [x]) with 1 in Hgi.
  rewrite Hl, Hx, He. repeat split. lia.
Qed.

Lemma unpadded_right s s' :
  unpadded s = true -> move_cursor_right s = Ok s' -> unpadded s' = true.
Proof.
  intros H E. apply move_cursor_right_inv in E.
  destruct E as [[_ ->]|(x & l & Hen & ->)]; [exact H|].
  apply unpadded_fields in H as (Hs & He & Hgi). apply unpadded_fields; simpl.
  rewrite Hen in He. simpl in He. apply andb_true_iff in He as [Hx Hl].
  split; [apply forallb_single_snoc; auto|]. split; [exact Hl|].
  rewrite len_app. change (len [x]) with 1. lia.
Qed.

Lemma unpadded_delete s r s' :
  unpadded s = true -> delete s = Ok (r, s') -> unpadded s' = true.
Proof.
  intros H E. apply delete_inv in E.
  destruct E as [(_ & _ & ->)|(x & l & _ & _ & Hst & ->)]; [exact H|].
  apply unpadded_fields in H as (Hs & He & Hgi). apply unpadded_fields; simpl.
  rewrite Hst in Hs, Hgi. apply forallb_single_snoc in Hs as [Hl Hx].
  rewrite len_app in Hgi. change (len [x]) with 1 in Hgi.
  repeat split; [exact Hl | exact He | lia].
Qed.

Lemma unpadded_delete_forward s r s' :
  unpadded s = true -> delete_forward s = Ok (r, s') -> unpadded s' = true.
Proof.
  intros H E. apply delete_forward_inv in E.
  destruct E as [(_ & _ & ->)|(x & l & _ & Hen & ->)]; [exact H|].
  apply unpadded_fields in H as (Hs & He & Hgi). apply unpadded_fields; simpl.
  rewrite Hen in He. simpl in He. apply andb_true_iff in He as [Hx Hl].
  repeat split; assumption.
Qed.

Lemma unpadded_insert c s :
  unpadded s = true -> gap_length s <> 0 -> unpadded (insert [c] s) = true.
Proof.
  intros H Hgl. apply unpadded_fields in H as (Hs & He & Hgi).
  rewrite insert_fields.
  replace (gap_length s =? 0) with false by (symmetry; apply Z.eqb_neq; exact Hgl).
  apply unpadded_fields; simpl.
  split; [apply forallb_single_snoc; auto|]. split; [exact He|].
  rewrite len_app. change (len [[c]]) with 1. lia.
Qed.

(** Within its room a buffer stays unpadded. *)
Lemma within_room_exec fuel o s s' (n : Z) :
  unpadded s = true -> 0 <= gap_excess s ->
  0 <= n -> n + count_inserts [o] <= room s ->
  exec fuel o s = Ok s' ->
  unpadded s' = true /\ 0 <= gap_excess s' /\ n <= room s' /\
  buffer_size s' = buffer_size s.
Proof.
  intros Hu Hx Hn0 Hn E.
  pose proof (gap_excess_exec fuel o s s' E) as [Hmono _].
  assert (HL : forall s0 s1, move_cursor_left s0 = Ok s1 ->
             room s1 = room s0 /\ buffer_size s1 = buffer_size s0).
  { intros s0 s1 E1. apply move_cursor_left_inv in E1.
    destruct E1 as [[_ ->]|(x & l & _ & Hst & ->)]; [auto|].
    unfold room; simpl. rewrite Hst, len_app. change (len [x]) with 1.
    rewrite len_cons. split; [lia | reflexivity]. }
  assert (HR : forall s0 s1, move_cursor_right s0 = Ok s1 ->
             room s1 = room s0 /\ buffer_size s1 = buffer_size s0).
  { intros s0 s1 E1. apply move_cursor_right_inv in E1.
    destruct E1 as [[_ ->]|(x & l & Hen & ->)]; [auto|].
    unfold room; simpl. rewrite Hen, len_app. change (len [x]) with 1.
    rewrite len_cons. split; [lia | reflexivity]. }
  split; [|split; [lia|]].
  - destruct o; simpl in E.
    + injection E as <-. apply unpadded_insert; [exact Hu|].
      apply unpadded_fields in Hu as (_ & _ & Hgi).
      unfold gap_excess in Hx. unfold room in Hn. simpl in Hn.
      pose proof (len_nonneg (end_buffer s)). lia.
    + destruct (delete s) as [[r s1]| |] eqn:E1; simpl in E; try discriminate.
      injection E as <-. exact (unpadded_delete s r s1 Hu E1).
    + destruct (delete_forward s) as [[r s1]| |] eqn:E1; simpl in E;
        try discriminate.
      injection E as <-. exact (unpadded_delete_forward s r s1 Hu E1).
    + exact (unpadded_left s s' Hu E).
    + exact (unpadded_right s s' Hu E).
    + exact (move_cursor_to_preserves (fun s1 => unpadded s1 = true)
               unpadded_left unpadded_right fuel position s s' Hu E).
  - destruct o; simpl in E, Hn.
    + injection E as <-.
      assert (Hgl : gap_length s <> 0).
      { apply unpadded_fields in Hu as (_ & _ & Hgi).
        unfold gap_excess in Hx. unfold room in Hn.
        pose proof (len_nonneg (end_buffer s)). lia. }
      rewrite insert_fields.
      replace (gap_length s =? 0) with false
        by (symmetry; apply Z.eqb_neq; exact Hgl).
      unfold room in *; simpl. rewrite len_app. change (len [[c]]) with 1.
      split; [lia | reflexivity].
    + destruct (delete s) as [[r s1]| |] eqn:E1; simpl in E; try discriminate.
      injection E as <-. apply delete_inv in E1.
      destruct E1 as [(_ & _ & ->)|(x & l & _ & _ & Hst & ->)];
        [split; [lia | reflexivity]|].
      unfold room in *; simpl. rewrite Hst, len_app in Hn.
      change (len [x]) with 1 in Hn. split; [lia | reflexivity].
    + destruct (delete_forward s) as [[r s1]| |] eqn:E1; simpl in E;
        try discriminate.
      injection E as <-. apply delete_forward_inv in E1.
      destruct E1 as [(_ & _ & ->)|(x & l & _ & Hen & ->)];
        [split; [lia | reflexivity]|].
      unfold room in *; simpl. rewrite Hen, len_cons in Hn.
      split; [lia | reflexivity].
    + destruct (HL s s' E) as [-> ->]. split; [lia | reflexivity].
    + destruct (HR s s' E) as [-> ->]. split; [lia | reflexivity].
    + assert (Hk : room s' = room s /\ buffer_size s' = buffer_size s).
      { apply (move_cursor_to_preserves
                 (fun s1 => room s1 = room s /\ buffer_size s1 = buffer_size s))
          with (fuel := fuel) (position := position) (s := s);
          [| |auto|exact E].
        - intros s0 s1 [H0 H1] E1. destruct (HL s0 s1 E1) as [-> ->]. auto.
        - intros s0 s1 [H0 H1] E1. destruct (HR s0 s1 E1) as [-> ->]. auto. }
      destruct Hk as [-> ->]. split; [lia | reflexivity].
Qed.

Lemma count_inserts_cons o ops :
  count_inserts (o :: ops) = count_inserts [o] + count_inserts ops.
Proof. destruct o; cbn [count_inserts]; lia. Qed.

Lemma count_inserts_nonneg ops : 0 <= count_inserts ops.
Proof.
  induction ops as [|o ops IH]; [simpl; lia|].
  rewrite count_inserts_cons. destruct o; cbn [count_inserts]; lia.
Qed.

Lemma within_room_run fuel ops s s' :
  unpadded s = true -> 0 <= gap_excess s ->
  count_inserts ops <= room s ->
  run fuel ops s = Ok s' ->
  unpadded s' = true /\ buffer_size s' = buffer_size s.
Proof.
  revert s; induction ops as [|o ops IH]; intros s Hu Hx Hn; simpl.
  - intros H; injection H as <-. auto.
  - destruct (exec fuel o s) as [s1| |] eqn:E; simpl; try discriminate.
    intros H. rewrite count_inserts_cons in Hn.
    destruct (within_room_exec fuel o s s1 (count_inserts ops) Hu Hx
                (count_inserts_nonneg ops) ltac:(lia) E)
      as (Hu1 & Hx1 & Hn1 & Hb1).
    destruct (IH s1 Hu1 Hx1 Hn1 H) as [Hu2 Hb2].
    split; [exact Hu2 | congruence].
Qed.

(** X10.  As long as the calls on [GapBuffer(text, size)] contain no more
    than [size - len(text)] insertions, the gap is never expanded: the
    buffer size is still [size], every element of the two lists is a
    one-character string, and the cursor is the length of
    [start_buffer]. *)
Theorem within_capacity_unpadded fuel ops (text : str) (size : Z) (s : t) :
  run fuel ops (__init__ text size) = Ok s ->
  count_inserts ops <= size - len text ->
  unpadded s = true /\ buffer_size s = size /\
  get_cursor_position s = len (start_buffer s).
Proof.
  intros H Hn.
  destruct (within_room_run fuel ops (__init__ text size) s
              (unpadded_init text size)) as [Hu Hb]; [| |exact H|].
  - unfold gap_excess; simpl. lia.
  - unfold room; simpl. rewrite len_list_of_str. change (len []) with 0. lia.
  - split; [exact Hu|]. split; [exact Hb|].
    apply unpadded_fields in Hu. apply Hu.
Qed.

Lemma within_capacity_unpadded_witness :
  run 2 edit_calls (__init__ (s_ "x") 4) = Ok edited_state /\
  count_inserts edit_calls <= 4 - len (s_ "x") /\
  unpadded edited_state = true /\ buffer_size edited_state = 4 /\
  get_cursor_position edited_state = len (start_buffer edited_state).
Proof.
  assert (H : run 2 edit_calls (__init__ (s_ "x") 4) = Ok edited_state)
    by reflexivity.
  assert (Hn : count_inserts edit_calls <= 4 - len (s_ "x"))
    by (vm_compute; discriminate).
  split; [exact H|]. split; [exact Hn|].
  exact (within_capacity_unpadded 2 edit_calls (s_ "x") 4 edited_state H Hn).
Defined.

(** X11.  In an unpadded buffer [move_cursor_to(position)] returns for
    every [position] between [0] and the length of the text, after at most
    [|position - cursor|] runs of its loop body, with the cursor on
    [position], the text unchanged and the buffer still unpadded. *)
Theorem unpadded_move_cursor_to (position : Z) (s : t) :
  unpadded s = true -> 0 <= position <= len (get_text s) ->
  exists s',
    move_cursor_to (Z.to_nat (Z.abs (position - get_cursor_position s)))
                   position s = Ok s' /\
    get_cursor_position s' = position /\
    get_text s' = get_text s /\
    unpadded s' = true.
Proof.
  intros Hu Hpos. unfold get_cursor_position.
  destruct (unpadded_lengths s Hu) as (_ & _ & Hlen).
  pose proof (unpadded_inv s Hu) as Hinv.
  destruct (move_cursor_to_reaches
              (Z.to_nat (Z.abs (position - gap_index s))) position s Hinv
              ltac:(lia) (Nat.le_refl _)) as (s' & E & Hc).
  exists s'. split; [exact E|]. split; [exact Hc|].
  pose proof (inv_move_cursor_to
                (Z.to_nat (Z.abs (position - gap_index s))) position s Hinv)
    as Hs.
  rewrite E in Hs. split; [apply Hs|].
  exact (move_cursor_to_preserves (fun s1 => unpadded s1 = true)
           unpadded_left unpadded_right _ position s s' Hu E).
Qed.

Lemma unpadded_move_cursor_to_witness :
  unpadded edited_state = true /\ 0 <= 3 <= len (get_text edited_state) /\
  exists s',
    move_cursor_to (Z.to_nat (Z.abs (3 - get_cursor_position edited_state)))
                   3 edited_state = Ok s' /\
    get_cursor_position s' = 3 /\
    get_text s' = get_text edited_state /\
    unpadded s' = true.
Proof.
  assert (Hu : unpadded edited_state = true) by reflexivity.
  assert (Hp : 0 <= 3 <= len (get_text edited_state))
    by (vm_compute; split; discriminate).
  split; [exact Hu|]. split; [exact Hp|].
  exact (unpadded_move_cursor_to 3 edited_state Hu Hp).
Defined.

Lemma cut_at (a b : str) (c : ascii) :
  slice_to (a ++ c :: b) (len a) = a /\
  slice_from (a ++ c :: b) (len a + 1) = b /\
  nth_error (a ++ c :: b) (Z.to_nat (len a)) = Some c.
Proof.
  unfold slice_to, slice_from, len.
  replace (Z.to_nat (Z.of_nat (length a) + 1)) with (S (length a)) by lia.
  rewrite Nat2Z.id. split; [|split].
  - rewrite firstn_app, Nat.sub_diag, firstn_all. simpl. apply app_nil_r.
  - change (c :: b) with ([c] ++ b). rewrite app_assoc.
    replace (S (length a)) with (length (a ++ [c]))
      by (rewrite length_app; simpl; lia).
    rewrite skipn_app, skipn_all, Nat.sub_diag. reflexivity.
  - rewrite nth_error_app2, Nat.sub_diag by lia. reflexivity.
Qed.

Lemma split_at (a b : str) :
  slice_to (a ++ b) (len a) = a /\ slice_from (a ++ b) (len a) = b.
Proof.
  unfold slice_to, slice_from, len. rewrite Nat2Z.id. split.
  - rewrite firstn_app, Nat.sub_diag, firstn_all. simpl. apply app_nil_r.
  - rewrite skipn_app, skipn_all, Nat.sub_diag. reflexivity.
Qed.

(** X12.  In an unpadded buffer with the cursor at [p > 0], [delete]
    returns the character [text[p-1]], the text becomes
    [text[0:p-1] + text[p:]], the cursor becomes [p - 1], and the buffer is
    still unpadded. *)
Theorem unpadded_delete_at_cursor (s : t) :
  unpadded s = true -> 0 < get_cursor_position s ->
  exists c s',
    delete s = Ok (Some [c], s') /\
    nth_error (get_text s) (Z.to_nat (get_cursor_position s - 1)) = Some c /\
    get_text s' =
      slice_to (get_text s) (get_cursor_position s - 1)
      ++ slice_from (get_text s) (get_cursor_position s) /\
    get_cursor_position s' = get_cursor_position s - 1 /\
    unpadded s' = true.
Proof.
  unfold get_cursor_position. intros Hu Hpos.
  pose proof (unpadded_inv s Hu) as Hinv.
  destruct (inv_start_last s Hinv Hpos) as (x & l & Hst).
  pose proof (delete_pos s l x Hpos Hst) as E.
  pose proof (unpadded_delete s _ _ Hu E) as Hu'.
  apply unpadded_fields in Hu as (Hs & He & Hgi).
  rewrite Hst in Hs, Hgi. apply forallb_single_snoc in Hs as [Hl Hx].
  destruct (single_inv x Hx) as (c & ->).
  rewrite len_app in Hgi. change (len [[c]]) with 1 in Hgi.
  assert (Hjl : len (join l) = gap_index s - 1)
    by (rewrite forallb_single_join by exact Hl; lia).
  exists c. eexists. split; [exact E|].
  assert (Ht : get_text s = join l ++ c :: join (end_buffer s)).
  { rewrite get_text_split, Hst, join_app, join_single, <- app_assoc.
    reflexivity. }
  rewrite Ht, <- Hjl.
  destruct (cut_at (join l) (join (end_buffer s)) c) as (H1 & H2 & H3).
  rewrite H1, H3. replace (gap_index s) with (len (join l) + 1) by lia.
  rewrite H2. split; [reflexivity|].
  split; [unfold get_text; simpl; apply join_app|].
  split; [simpl; lia | rewrite Hjl; exact Hu'].
Qed.

Lemma unpadded_delete_at_cursor_witness :
  unpadded edited_state = true /\ 0 < get_cursor_position edited_state /\
  exists c s',
    delete edited_state = Ok (Some [c], s') /\
    nth_error (get_text edited_state)
              (Z.to_nat (get_cursor_position edited_state - 1)) = Some c /\
    get_text s' =
      slice_to (get_text edited_state) (get_cursor_position edited_state - 1)
      ++ slice_from (get_text edited_state) (get_cursor_position edited_state) /\
    get_cursor_position s' = get_cursor_position edited_state - 1 /\
    unpadded s' = true.
Proof.
  assert (Hu : unpadded edited_state = true) by reflexivity.
  assert (Hp : 0 < get_cursor_position edited_state) by reflexivity.
  split; [exact Hu|]. split; [exact Hp|].
  exact (unpadded_delete_at_cursor edited_state Hu Hp).
Defined.

(** X13.  In an unpadded buffer with the cursor at [p] before the end of
    the text, [delete_forward] returns the character [text[p]], the text
    becomes [text[0:p] + text[p+1:]], the cursor stays at [p], and the
    buffer is still unpadded. *)
Theorem unpadded_delete_forward_at_cursor (s : t) :
  unpadded s = true -> get_cursor_position s < len (get_text s) ->
  exists c s',
    delete_forward s = Ok (Some [c], s') /\
    nth_error (get_text s) (Z.to_nat (get_cursor_position s)) = Some c /\
    get_text s' =
      slice_to (get_text s) (get_cursor_position s)
      ++ slice_from (get_text s) (get_cursor_position s + 1) /\
    get_cursor_position s' = get_cursor_position s /\
    unpadded s' = true.
Proof.
  unfold get_cursor_position. intros Hu Hlt.
  destruct (unpadded_lengths s Hu) as (Hjs & _ & Hlen).
  destruct (end_buffer s) as [|x r] eqn:Hen.
  { change (len []) with 0 in Hlen. lia. }
  pose proof (delete_forward_cons s x r Hen) as E.
  pose proof (unpadded_delete_forward s _ _ Hu E) as Hu'.
  apply unpadded_fields in Hu as (Hs & He & Hgi).
  rewrite Hen in He. simpl in He. apply andb_true_iff in He as [Hx Hr].
  destruct (single_inv x Hx) as (c & ->).
  exists c. eexists. split; [exact E|].
  assert (Ht : get_text s = join (start_buffer s) ++ c :: join r).
  { rewrite get_text_split, Hen. reflexivity. }
  rewrite Ht, <- Hjs.
  destruct (cut_at (join (start_buffer s)) (join r) c) as (H1 & H2 & H3).
  rewrite H1, H2, H3. split; [reflexivity|].
  split; [unfold get_text; simpl; apply join_app|].
  split; [simpl; lia | rewrite Hjs; exact Hu'].
Qed.

Lemma unpadded_delete_forward_at_cursor_witness :
  unpadded edited_state = true /\
  get_cursor_position edited_state < len (get_text edited_state) /\
  exists c s',
    delete_forward edited_state = Ok (Some [c], s') /\
    nth_error (get_text edited_state)
              (Z.to_nat (get_cursor_position edited_state)) = Some c /\
    get_text s' =
      slice_to (get_text edited_state) (get_cursor_position edited_state)
      ++ slice_from (get_text edited_state)
                    (get_cursor_position edited_state + 1) /\
    get_cursor_position s' = get_cursor_position edited_state /\
    unpadded s' = true.
Proof.
  assert (Hu : unpadded edited_state = true) by reflexivity.
  assert (Hp : get_cursor_position edited_state < len (get_text edited_state))
    by reflexivity.
  split; [exact Hu|]. split; [exact Hp|].
  exact (unpadded_delete_forward_at_cursor edited_state Hu Hp).
Defined.

(** X14.  In an unpadded buffer whose [gap_length] is not [0], [insert]
    of a character puts it at the cursor: the text becomes
    [text[0:p] + char + text[p:]], the cursor becomes [p + 1], and the
    buffer is still unpadded. *)
Theorem unpadded_insert_at_cursor (c : ascii) (s : t) :
  unpadded s = true -> gap_length s <> 0 ->
  get_text (insert [c] s) =
    slice_to (get_text s) (get_cursor_position s) ++ [c]
    ++ slice_from (get_text s) (get_cursor_position s) /\
  get_cursor_position (insert [c] s) = get_cursor_position s + 1 /\
  unpadded (insert [c] s) = true.
Proof.
  intros Hu Hgl. destruct (unpadded_lengths s Hu) as (Hjs & _ & _).
  destruct (insert_at_cursor [c] s) as [H1 H2].
  { unfold get_cursor_position. lia. }
  split; [exact H1|]. split; [exact H2|].
  apply unpadded_insert; assumption.
Qed.

Lemma unpadded_insert_at_cursor_witness :
  unpadded edited_state = true /\ gap_length edited_state <> 0 /\
  get_text (insert [ "z"%char ] edited_state) =
    slice_to (get_text edited_state) (get_cursor_position edited_state)
    ++ [ "z"%char ]
    ++ slice_from (get_text edited_state) (get_cursor_position edited_state) /\
  get_cursor_position (insert [ "z"%char ] edited_state)
    = get_cursor_position edited_state + 1 /\
  unpadded (insert [ "z"%char ] edited_state) = true.
Proof.
  assert (Hu : unpadded edited_state = true) by reflexivity.
  assert (Hg : gap_length edited_state <> 0) by (vm_compute; discriminate).
  split; [exact Hu|]. split; [exact Hg|].
  exact (unpadded_insert_at_cursor "z" edited_state Hu Hg).
Defined.

(** X15.  In an unpadded buffer the single cursor moves clamp at the two
    ends of the text: [move_cursor_left] puts the cursor at
    [max(0, p - 1)] and [move_cursor_right] at [min(len(text), p + 1)];
    both leave the text unchanged and the buffer unpadded. *)
Theorem unpadded_single_moves (s : t) :
  unpadded s = true ->
  (exists s', move_cursor_left s = Ok s' /\
              get_cursor_position s' = Z.max 0 (get_cursor_position s - 1) /\
              get_text s' = get_text s /\ unpadded s' = true) /\
  (exists s', move_cursor_right s = Ok s' /\
              get_cursor_position s' =
                Z.min (len (get_text s)) (get_cursor_position s + 1) /\
              get_text s' = get_text s /\ unpadded s' = true).
Proof.
  unfold get_cursor_position. intros Hu.
  pose proof (unpadded_inv s Hu) as Hinv.
  destruct (unpadded_lengths s Hu) as (_ & _ & Hlen).
  split.
  - pose proof (inv_move_cursor_left s Hinv) as Hs.
    destruct (move_cursor_left s) as [s'| |] eqn:E; simpl in Hs;
      [|contradiction|].
    + exists s'. split; [reflexivity|].
      split; [|split; [apply Hs | exact (unpadded_left s s' Hu E)]].
      pose proof (inv_nonneg s Hinv).
      destruct (move_cursor_left_gap_index s s' E) as [[? ->]|[? ->]]; lia.
    + exfalso. unfold move_cursor_left in E.
      destruct (gap_index s >? 0); [|discriminate].
      destruct (pop _) as [[? ?]|]; discriminate.
  - destruct (end_buffer s) as [|x r] eqn:Hen.
    + exists s. rewrite (move_cursor_right_nil s Hen).
      change (len []) with 0 in Hlen.
      repeat split; [lia | exact Hu].
    + pose proof (move_cursor_right_cons s x r Hen) as E.
      pose proof (inv_move_cursor_right s Hinv) as Hs.
      rewrite E in Hs |- *. simpl in Hs. eexists. split; [reflexivity|].
      rewrite len_cons in Hlen. pose proof (len_nonneg r).
      split; [simpl; lia|]. split; [apply Hs|].
      exact (unpadded_right s _ Hu E).
Qed.

Lemma unpadded_single_moves_witness :
  unpadded edited_state = true /\
  (exists s', move_cursor_left edited_state = Ok s' /\
              get_cursor_position s'
                = Z.max 0 (get_cursor_position edited_state - 1) /\
              get_text s' = get_text edited_state /\ unpadded s' = true) /\
  (exists s', move_cursor_right edited_state = Ok s' /\
              get_cursor_position s' =
                Z.min (len (get_text edited_state))
                      (get_cursor_position edited_state + 1) /\
              get_text s' = get_text edited_state /\ unpadded s' = true).
Proof.
  assert (Hu : unpadded edited_state = true) by reflexivity.
  split; [exact Hu | exact (unpadded_single_moves edited_state Hu)].
Defined.

(** ** The editor *)

(** *** More fuel does not change a result *)

Lemma while_left_mono fuel fuel' position s s' :
  (fuel <= fuel')%nat -> while_left fuel position s = Ok s' ->
  while_left fuel' position s = Ok s'.
Proof.
  revert fuel' s; induction fuel as [|fuel IH]; intros fuel' s Hle; simpl.
  - destruct (gap_index s >? position) eqn:Hc; [discriminate|].
    intros H. destruct fuel'; simpl; rewrite Hc; exact H.
  - destruct fuel' as [|fuel']; [lia|]. simpl.
    destruct (gap_index s >? position); [|auto].
    destruct (move_cursor_left s) as [s1| |]; simpl; try discriminate.
    apply IH. lia.
Qed.

Lemma while_right_mono fuel fuel' position s s' :
  (fuel <= fuel')%nat -> while_right fuel position s = Ok s' ->
  while_right fuel' position s = Ok s'.
Proof.
  revert fuel' s; induction fuel as [|fuel IH]; intros fuel' s Hle; simpl.
  - destruct (gap_index s <? position) eqn:Hc; [discriminate|].
    intros H. destruct fuel'; simpl; rewrite Hc; exact H.
  - destruct fuel' as [|fuel']; [lia|]. simpl.
    destruct (gap_index s <? position); [|auto].
    destruct (move_cursor_right s) as [s1| |]; simpl; try discriminate.
    apply IH. lia.
Qed.

Lemma move_cursor_to_mono fuel fuel' position s s' :
  (fuel <= fuel')%nat -> move_cursor_to fuel position s = Ok s' ->
  move_cursor_to fuel' position s = Ok s'.
Proof.
  intros Hle. unfold move_cursor_to.
  destruct (position <? gap_index s); [apply while_left_mono; exact Hle|].
  destruct (position >? gap_index s); [apply while_right_mono; exact Hle|].
  auto.
Qed.

Lemma exec_mono fuel fuel' o s s' :
  (fuel <= fuel')%nat -> exec fuel o s = Ok s' -> exec fuel' o s = Ok s'.
Proof.
  intros Hle. destruct o; simpl; auto. apply move_cursor_to_mono; exact Hle.
Qed.

Lemma run_mono fuel fuel' ops s s' :
  (fuel <= fuel')%nat -> run fuel ops s = Ok s' -> run fuel' ops s = Ok s'.
Proof.
  intros Hle. revert s; induction ops as [|o ops IH]; intros s; simpl; [auto|].
  destruct (exec fuel o s) as [s1| |] eqn:E; simpl; try discriminate.
  rewrite (exec_mono fuel fuel' o s s1 Hle E). simpl. apply IH.
Qed.

Lemma reachable_init text size : reachable (__init__ text size).
Proof. exists text, size, 0%nat, []. reflexivity. Qed.

Lemma reachable_exec fuel o s s' :
  reachable s -> exec fuel o s = Ok s' -> reachable s'.
Proof.
  intros (text & size & f & ops & Hrun) E.
  exists text, size, (Nat.max f fuel), (ops ++ [o]).
  rewrite run_app.
  rewrite (run_mono f (Nat.max f fuel) ops _ s (Nat.le_max_l _ _) Hrun).
  simpl. rewrite (exec_mono fuel (Nat.max f fuel) o s s' (Nat.le_max_r _ _) E).
  reflexivity.
Qed.

Lemma exec_safe fuel o s : reachable s -> safe reachable (exec fuel o s).
Proof.
  intros H. pose proof (inv_exec fuel o s (reachable_inv s H)) as Hs.
  destruct (exec fuel o s) as [s'| |] eqn:E; simpl in *; auto.
  exact (reachable_exec fuel o s s' H E).
Qed.

(** *** Key presses are buffer calls *)

(** A key press either is not handled or is one call on the buffer
    followed by [update_display]. *)
Lemma on_key_press_cases fuel event e :
  SimpleTextEditor.on_key_press fuel event e = Ok (None, e) \/
  exists o,
    SimpleTextEditor.on_key_press fuel event e =
    (b <- exec fuel o (SimpleTextEditor.gap_buffer e) ;;
     Ok (Some (s_ "break"),
         SimpleTextEditor.update_display (SimpleTextEditor.set_gap_buffer b e))).
Proof.
  unfold SimpleTextEditor.on_key_press.
  destruct (SimpleTextEditor.keysym event =? "BackSpace")%string.
  { right. exists Delete. simpl.
    destruct (delete (SimpleTextEditor.gap_buffer e)); reflexivity. }
  destruct (SimpleTextEditor.keysym event =? "Delete")%string.
  { right. exists DeleteForward. simpl.
    destruct (delete_forward (SimpleTextEditor.gap_buffer e)); reflexivity. }
  destruct (SimpleTextEditor.keysym event =? "Left")%string.
  { right. exists MoveCursorLeft. reflexivity. }
  destruct (SimpleTextEditor.keysym event =? "Right")%string.
  { right. exists MoveCursorRight. reflexivity. }
  destruct (SimpleTextEditor.keysym event =? "Home")%string.
  { right. exists (MoveCursorTo 0). reflexivity. }
  destruct (SimpleTextEditor.keysym event =? "End")%string.
  { right.
    exists (MoveCursorTo (len (get_text (SimpleTextEditor.gap_buffer e)))).
    reflexivity. }
  destruct (len (SimpleTextEditor.char event) =? 1) eqn:Hc; [|left; reflexivity].
  right. apply Z.eqb_eq in Hc.
  destruct (SimpleTextEditor.char event) as [|c [|c' x]];
    try (unfold len in Hc; simpl in Hc; lia).
  exists (Insert c). reflexivity.
Qed.

(** *** Sessions *)

Lemma gap_buffer_update_display e :
  SimpleTextEditor.gap_buffer (SimpleTextEditor.update_display e)
  = SimpleTextEditor.gap_buffer e.
Proof. reflexivity. Qed.

Lemma in_sync_update_display e : in_sync (SimpleTextEditor.update_display e).
Proof. split; reflexivity. Qed.

Lemma in_sync_set_status_bar x e :
  in_sync e -> in_sync (SimpleTextEditor.set_status_bar x e).
Proof. intros H. exact H. Qed.

Lemma handle_safe fuel ev e :
  reachable (SimpleTextEditor.gap_buffer e) ->
  safe (fun e' => reachable (SimpleTextEditor.gap_buffer e')) (handle fuel ev e).
Proof.
  intros H. destruct ev as [event| |char_index| |filename read|filename written];
    simpl.
  - destruct (on_key_press_cases fuel event e) as [-> | (o & ->)];
      [exact H|].
    pose proof (exec_safe fuel o _ H) as Hs.
    destruct (exec fuel o (SimpleTextEditor.gap_buffer e)); simpl in *; auto.
  - exact H.
  - unfold SimpleTextEditor.on_click.
    pose proof (exec_safe fuel (MoveCursorTo char_index) _ H) as Hs.
    simpl in Hs.
    destruct (move_cursor_to fuel char_index (SimpleTextEditor.gap_buffer e));
      simpl in *; auto.
  - apply reachable_init.
  - unfold SimpleTextEditor.open_file.
    destruct (filename =? "")%string; [exact H|].
    destruct read as [content|]; [apply reachable_init | exact H].
  - unfold SimpleTextEditor.save_file.
    destruct (filename =? "")%string; [exact H|].
    destruct written; exact H.
Qed.

Lemma handle_in_sync fuel ev e e' :
  in_sync e -> handle fuel ev e = Ok e' -> in_sync e'.
Proof.
  intros H. destruct ev as [event| |char_index| |filename read|filename written];
    simpl.
  - destruct (on_key_press_cases fuel event e) as [-> | (o & ->)].
    + intros E; injection E as <-. exact H.
    + destruct (exec fuel o (SimpleTextEditor.gap_buffer e)); simpl;
        try discriminate.
      intros E; injection E as <-. apply in_sync_update_display.
  - intros E; injection E as <-. exact H.
  - unfold SimpleTextEditor.on_click.
    destruct (move_cursor_to fuel char_index (SimpleTextEditor.gap_buffer e));
      simpl; try discriminate.
    intros E; injection E as <-. apply in_sync_update_display.
  - intros E; injection E as <-. unfold SimpleTextEditor.new_file.
    apply in_sync_set_status_bar, in_sync_update_display.
  - intros E; injection E as <-. unfold SimpleTextEditor.open_file.
    destruct (filename =? "")%string; [exact H|].
    destruct read as [content|]; [|exact H].
    apply in_sync_set_status_bar, in_sync_update_display.
  - intros E; injection E as <-. unfold SimpleTextEditor.save_file.
    destruct (filename =? "")%string; [exact H|].
    destruct written; exact H.
Qed.

(** X16.  No sequence of key presses, key releases, clicks and file
    commands makes the editor raise [IndexError], and after any such
    sequence the editor's buffer is in a reachable state; in particular
    its cursor lies between [0] and the length of its text. *)
Theorem session_keeps_buffer_reachable fuel evs :
  session fuel evs SimpleTextEditor.__init__ <> IndexError /\
  forall e, session fuel evs SimpleTextEditor.__init__ = Ok e ->
    reachable (SimpleTextEditor.gap_buffer e) /\
    0 <= get_cursor_position (SimpleTextEditor.gap_buffer e)
      <= len (get_text (SimpleTextEditor.gap_buffer e)).
Proof.
  assert (G : forall e0, reachable (SimpleTextEditor.gap_buffer e0) ->
            safe (fun e => reachable (SimpleTextEditor.gap_buffer e))
                 (session fuel evs e0)).
  { induction evs as [|ev evs IH]; intros e0 H0; simpl; [exact H0|].
    eapply safe_bind; [apply handle_safe; exact H0 | exact IH]. }
  specialize (G SimpleTextEditor.__init__ (reachable_init _ _)).
  split.
  - intros E. rewrite E in G. exact G.
  - intros e E. rewrite E in G. simpl in G. split; [exact G|].
    apply inv_cursor_bound, reachable_inv, G.
Qed.

(** X17.  After any sequence of events the widgets show the buffer: the
    text last put into the text area is the buffer's text, and the
    insertion mark was last set to line 1, column [cursor position]. *)
Theorem session_keeps_display_in_sync fuel evs e :
  session fuel evs SimpleTextEditor.__init__ = Ok e ->
  SimpleTextEditor.text_area e = get_text (SimpleTextEditor.gap_buffer e) /\
  SimpleTextEditor.insert_mark e =
    s_ "1." ++ str_of_int (get_cursor_position (SimpleTextEditor.gap_buffer e)).
Proof.
  assert (G : forall e0, in_sync e0 -> session fuel evs e0 = Ok e -> in_sync e).
  { induction evs as [|ev evs IH]; intros e0 H0; simpl.
    - intros E; injection E as <-; exact H0.
    - destruct (handle fuel ev e0) as [e1| |] eqn:E1; simpl; try discriminate.
      apply IH. exact (handle_in_sync fuel ev e0 e1 H0 E1). }
  apply G. apply in_sync_update_display.
Qed.

Lemma session_keeps_display_in_sync_witness :
  exists e,
    session 3 demo_events SimpleTextEditor.__init__ = Ok e /\
    SimpleTextEditor.text_area e = s_ "i" /\
    SimpleTextEditor.insert_mark e = s_ "1.0" /\
    SimpleTextEditor.text_area e = get_text (SimpleTextEditor.gap_buffer e) /\
    SimpleTextEditor.insert_mark e =
      s_ "1." ++ str_of_int (get_cursor_position (SimpleTextEditor.gap_buffer e)).
Proof.
  eexists. split; [vm_compute; reflexivity|].
  split; [reflexivity|]. split; [reflexivity|].
  apply (session_keeps_display_in_sync 3 demo_events). vm_compute. reflexivity.
Defined.

(** *** Navigation keys and clicks *)

Lemma on_key_press_Home fuel event e :
  SimpleTextEditor.keysym event = "Home"%string ->
  SimpleTextEditor.on_key_press fuel event e =
  (b <- move_cursor_to fuel 0 (SimpleTextEditor.gap_buffer e) ;;
   Ok (Some (s_ "break"),
       SimpleTextEditor.update_display (SimpleTextEditor.set_gap_buffer b e))).
Proof. intros Hk. unfold SimpleTextEditor.on_key_press. rewrite Hk. reflexivity. Qed.

Lemma on_key_press_End fuel event e :
  SimpleTextEditor.keysym event = "End"%string ->
  SimpleTextEditor.on_key_press fuel event e =
  (b <- move_cursor_to fuel (len (get_text (SimpleTextEditor.gap_buffer e)))
                       (SimpleTextEditor.gap_buffer e) ;;
   Ok (Some (s_ "break"),
       SimpleTextEditor.update_display (SimpleTextEditor.set_gap_buffer b e))).
Proof. intros Hk. unfold SimpleTextEditor.on_key_press. rewrite Hk. reflexivity. Qed.

(** X18.  The Home key always works: in an editor whose buffer is
    reachable the handler returns ['break'] after at most [cursor] runs of
    the loop, with the cursor at [0] and the text unchanged. *)
Theorem home_key_returns event e :
  SimpleTextEditor.keysym event = "Home"%string ->
  reachable (SimpleTextEditor.gap_buffer e) ->
  exists e',
    SimpleTextEditor.on_key_press
      (Z.to_nat (get_cursor_position (SimpleTextEditor.gap_buffer e))) event e
      = Ok (Some (s_ "break"), e') /\
    get_cursor_position (SimpleTextEditor.gap_buffer e') = 0 /\
    get_text (SimpleTextEditor.gap_buffer e')
      = get_text (SimpleTextEditor.gap_buffer e).
Proof.
  intros Hk H. apply reachable_inv in H. unfold get_cursor_position.
  set (b := SimpleTextEditor.gap_buffer e) in *.
  pose proof (inv_nonneg b H) as Hgi. pose proof (len_nonneg (end_buffer b)).
  destruct (move_cursor_to_reaches (Z.to_nat (gap_index b)) 0 b H
              ltac:(lia) ltac:(lia)) as (b' & E & Hc).
  pose proof (inv_move_cursor_to (Z.to_nat (gap_index b)) 0 b H) as Hs.
  rewrite E in Hs. simpl in Hs.
  eexists. rewrite (on_key_press_Home _ event e Hk). fold b. rewrite E.
  split; [reflexivity|]. split; [exact Hc | apply Hs].
Qed.

Lemma home_key_returns_witness :
  SimpleTextEditor.keysym (SimpleTextEditor.mk_key_event "Home" (s_ ""))
    = "Home"%string /\
  reachable (SimpleTextEditor.gap_buffer
               (SimpleTextEditor.mk after_growth (s_ "") (s_ "") (s_ ""))) /\
  exists e',
    SimpleTextEditor.on_key_press
      (Z.to_nat (get_cursor_position
                   (SimpleTextEditor.gap_buffer
                      (SimpleTextEditor.mk after_growth (s_ "") (s_ "") (s_ "")))))
      (SimpleTextEditor.mk_key_event "Home" (s_ ""))
      (SimpleTextEditor.mk after_growth (s_ "") (s_ "") (s_ ""))
      = Ok (Some (s_ "break"), e') /\
    get_cursor_position (SimpleTextEditor.gap_buffer e') = 0 /\
    get_text (SimpleTextEditor.gap_buffer e')
      = get_text (SimpleTextEditor.gap_buffer
                    (SimpleTextEditor.mk after_growth (s_ "") (s_ "") (s_ ""))).
Proof.
  assert (H : reachable (SimpleTextEditor.gap_buffer
               (SimpleTextEditor.mk after_growth (s_ "") (s_ "") (s_ "")))).
  { exists (s_ ""), 1, 0%nat, [Insert "a"; Insert "b"]. reflexivity. }
  split; [reflexivity|]. split; [exact H|].
  exact (home_key_returns (SimpleTextEditor.mk_key_event "Home" (s_ "")) _
           eq_refl H).
Defined.

(** X19.  The End key asks for [len(get_text())].  In an editor whose
    buffer is reachable the handler returns exactly when
    [len(get_text()) <= gap_index + len(end_buffer)], and then the cursor
    is at the end of the text; otherwise its loop never ends. *)
Theorem end_key_returns_iff event e :
  SimpleTextEditor.keysym event = "End"%string ->
  reachable (SimpleTextEditor.gap_buffer e) ->
  ((exists fuel r, SimpleTextEditor.on_key_press fuel event e = Ok r) <->
   len (get_text (SimpleTextEditor.gap_buffer e))
     <= gap_index (SimpleTextEditor.gap_buffer e)
        + len (end_buffer (SimpleTextEditor.gap_buffer e))) /\
  (forall fuel r,
     SimpleTextEditor.on_key_press fuel event e = Ok r ->
     fst r = Some (s_ "break") /\
     get_cursor_position (SimpleTextEditor.gap_buffer (snd r))
       = len (get_text (SimpleTextEditor.gap_buffer e)) /\
     get_text (SimpleTextEditor.gap_buffer (snd r))
       = get_text (SimpleTextEditor.gap_buffer e)).
Proof.
  intros Hk H. apply reachable_inv in H.
  set (b := SimpleTextEditor.gap_buffer e) in *.
  pose proof (len_nonneg (get_text b)) as Hlen.
  destruct (move_cursor_to_domain (len (get_text b)) b H) as (Hiff & Hout & Hc).
  split; [split|].
  - intros (fuel & r & E). rewrite (on_key_press_End fuel event e Hk) in E.
    fold b in E.
    destruct (move_cursor_to fuel (len (get_text b)) b) as [b'| |] eqn:Eb;
      simpl in E; try discriminate.
    apply Hiff. eauto.
  - intros Hle. destruct Hiff as [_ Hiff].
    destruct (Hiff ltac:(lia)) as (fuel & b' & Eb).
    exists fuel. eexists. rewrite (on_key_press_End fuel event e Hk).
    fold b. rewrite Eb. reflexivity.
  - intros fuel r E. rewrite (on_key_press_End fuel event e Hk) in E.
    fold b in E.
    destruct (move_cursor_to fuel (len (get_text b)) b) as [b'| |] eqn:Eb;
      simpl in E; try discriminate.
    injection E as <-. simpl.
    pose proof (inv_move_cursor_to fuel (len (get_text b)) b H) as Hs.
    rewrite Eb in Hs. simpl in Hs.
    split; [reflexivity|]. split; [exact (Hc fuel b' Eb) | apply Hs].
Qed.

Lemma end_key_returns_iff_witness :
  SimpleTextEditor.keysym (SimpleTextEditor.mk_key_event "End" (s_ ""))
    = "End"%string /\
  reachable (SimpleTextEditor.gap_buffer
               (SimpleTextEditor.mk stuck_state (s_ "") (s_ "") (s_ ""))) /\
  ~ (exists fuel r,
       SimpleTextEditor.on_key_press fuel
         (SimpleTextEditor.mk_key_event "End" (s_ ""))
         (SimpleTextEditor.mk stuck_state (s_ "") (s_ "") (s_ "")) = Ok r).
Proof.
  assert (H : reachable (SimpleTextEditor.gap_buffer
               (SimpleTextEditor.mk stuck_state (s_ "") (s_ "") (s_ "")))).
  { exists (s_ ""), 1, 0%nat, [Insert "a"; Insert "b"; Delete; Delete].
    reflexivity. }
  split; [reflexivity|]. split; [exact H|].
  intros Hex.
  destruct (end_key_returns_iff (SimpleTextEditor.mk_key_event "End" (s_ ""))
              _ eq_refl H) as [[Hto _] _].
  specialize (Hto Hex). vm_compute in Hto. apply Hto. reflexivity.
Defined.

(** X20.  A click at character index [i] returns exactly when
    [0 <= i <= gap_index + len(end_buffer)]; for any other index (a
    negative one, or one past what [end_buffer] can supply) the loop of
    [move_cursor_to] never ends.  When it returns the cursor is at [i] and
    the text is unchanged. *)
Theorem on_click_returns_iff (char_index : Z) e :
  reachable (SimpleTextEditor.gap_buffer e) ->
  ((exists fuel e', SimpleTextEditor.on_click fuel char_index e = Ok e') <->
   0 <= char_index
     <= gap_index (SimpleTextEditor.gap_buffer e)
        + len (end_buffer (SimpleTextEditor.gap_buffer e))) /\
  (forall fuel e',
     SimpleTextEditor.on_click fuel char_index e = Ok e' ->
     get_cursor_position (SimpleTextEditor.gap_buffer e') = char_index /\
     get_text (SimpleTextEditor.gap_buffer e')
       = get_text (SimpleTextEditor.gap_buffer e)).
Proof.
  intros H. apply reachable_inv in H. unfold SimpleTextEditor.on_click.
  set (b := SimpleTextEditor.gap_buffer e) in *.
  destruct (move_cursor_to_domain char_index b H) as (Hiff & Hout & Hc).
  split; [split|].
  - intros (fuel & e' & E).
    destruct (move_cursor_to fuel char_index b) as [b'| |] eqn:Eb;
      simpl in E; try discriminate.
    apply Hiff. eauto.
  - intros Hr. destruct Hiff as [_ Hiff].
    destruct (Hiff Hr) as (fuel & b' & Eb).
    exists fuel. eexists. rewrite Eb. reflexivity.
  - intros fuel e' E.
    destruct (move_cursor_to fuel char_index b) as [b'| |] eqn:Eb;
      simpl in E; try discriminate.
    injection E as <-. simpl.
    pose proof (inv_move_cursor_to fuel char_index b H) as Hs.
    rewrite Eb in Hs. simpl in Hs.
    split; [exact (Hc fuel b' Eb) | apply Hs].
Qed.

Lemma on_click_returns_iff_witness :
  reachable (SimpleTextEditor.gap_buffer SimpleTextEditor.__init__) /\
  ~ (exists fuel e',
       SimpleTextEditor.on_click fuel 1 SimpleTextEditor.__init__ = Ok e').
Proof.
  assert (H : reachable (SimpleTextEditor.gap_buffer SimpleTextEditor.__init__)).
  { exists (s_ ""), default_buffer_size, 0%nat, []. reflexivity. }
  split; [exact H|].
  intros Hex.
  destruct (on_click_returns_iff 1 SimpleTextEditor.__init__ H) as [[Hto _] _].
  specialize (Hto Hex). vm_compute in Hto. destruct Hto as [_ Hto].
  apply Hto. reflexivity.
Defined.

(** *** Typing a run of characters *)

Lemma inserts_cons char chars s :
  inserts (char :: chars) s = inserts chars (insert char s).
Proof. reflexivity. Qed.

Lemma inserts_view chars s :
  join (start_buffer (inserts chars s)) = join (start_buffer s) ++ join chars /\
  end_buffer (inserts chars s) = end_buffer s /\
  gap_index (inserts chars s) = gap_index s + len chars.
Proof.
  revert s; induction chars as [|char chars IH]; intros s.
  - simpl. rewrite app_nil_r. change (len []) with 0. repeat split; lia.
  - rewrite inserts_cons. destruct (IH (insert char s)) as (H1 & H2 & H3).
    rewrite H1, H2, H3, join_start_insert, end_buffer_insert, gap_index_insert.
    rewrite join_cons, len_cons, <- app_assoc. repeat split; lia.
Qed.

(** X21.  Inserting a run of strings one after the other, in any state,
    puts their concatenation between what [start_buffer] spells and what
    [end_buffer] spells (however often the gap is expanded on the way),
    and advances the cursor by the number of insertions. *)
Theorem inserts_land_between (chars : list str) (s : t) :
  get_text (inserts chars s) =
    join (start_buffer s) ++ join chars ++ join (end_buffer s) /\
  get_cursor_position (inserts chars s) = get_cursor_position s + len chars.
Proof.
  destruct (inserts_view chars s) as (H1 & H2 & H3).
  rewrite get_text_split, H1, H2, <- app_assoc. split; [reflexivity | exact H3].
Qed.

(** X22.  After [main] has loaded a sample text (of any length) the text
    area shows that text, the buffer's cursor is at its end, and the
    insertion mark has been set to column [len(sample_text)] of line 1. *)
Theorem main_shows_sample_text (sample_text : str) :
  SimpleTextEditor.text_area (main_load sample_text) = sample_text /\
  get_text (SimpleTextEditor.gap_buffer (main_load sample_text)) = sample_text /\
  get_cursor_position (SimpleTextEditor.gap_buffer (main_load sample_text))
    = len sample_text /\
  SimpleTextEditor.insert_mark (main_load sample_text)
    = s_ "1." ++ str_of_int (len sample_text).
Proof.
  unfold main_load.
  change (fold_left (fun b char => insert char b) (list_of_str sample_text)
            (SimpleTextEditor.gap_buffer SimpleTextEditor.__init__))
    with (inserts (list_of_str sample_text)
            (__init__ (s_ "") default_buffer_size)).
  destruct (inserts_view (list_of_str sample_text)
              (__init__ (s_ "") default_buffer_size)) as (H1 & H2 & H3).
  assert (Ht : get_text (inserts (list_of_str sample_text)
                           (__init__ (s_ "") default_buffer_size))
               = sample_text).
  { rewrite get_text_split, H1, H2, join_list_of_str. simpl. apply app_nil_r. }
  assert (Hc : gap_index (inserts (list_of_str sample_text)
                            (__init__ (s_ "") default_buffer_size))
               = len sample_text).
  { rewrite H3, len_list_of_str. reflexivity. }
  set (b := inserts (list_of_str sample_text)
              (__init__ (s_ "") default_buffer_size)) in *.
  split; [exact Ht|]. split; [exact Ht|]. split; [exact Hc|].
  change (s_ "1." ++ str_of_int (gap_index b)
          = s_ "1." ++ str_of_int (len sample_text)).
  rewrite Hc. reflexivity.
Qed.
